(** * SBI-tutorial: the log-probability functions of the tutorial notebooks

    The notebooks of the repository define a handful of vectorised
    log-probability callbacks over NumPy arrays and hand them to a nested
    sampler.  This development embeds those functions over the real numbers
    (a NumPy float array is a [list R], a 2-D array the list of its rows) and
    proves what each one computes.  NumPy's shape errors are kept: an
    operation that raises on a shape mismatch returns [None].

    The density estimator the second notebook imports
    ([ConditionalGaussianKernelDensity]) is not defined in the repository; the
    parts of it that are reasoned about are modelled from its description and
    marked as such. *)

From Stdlib Require Import Reals Lra Lia.
From stdpp Require Import gmap strings list sorting.

Open Scope R_scope.

(** ** NumPy arrays and broadcasting *)

Module Np.

Abbreviation vec := (list R) (only parsing).
Abbreviation mat := (list (list R)) (only parsing).

(** [np.sum] and [np.prod] over a 1-D array. *)
Definition sum (v : vec) : R := foldr Rplus 0 v.
Definition prod (v : vec) : R := foldr Rmult 1 v.

(** Broadcasting along one axis: the two lengths are equal, or one of them
    is 1 and that operand is repeated; any other pair of lengths raises. *)
Definition bcast {A B C} (f : A -> B -> option C)
    (a : list A) (b : list B) : option (list C) :=
  if decide (length a = length b) then mapM (fun xy => f xy.1 xy.2) (zip a b)
  else match a, b with
       | [x], _ => mapM (f x) b
       | _, [y] => mapM (fun x => f x y) a
       | _, _ => None
       end.

(** An elementwise operation on 1-D arrays, and on 2-D arrays. *)
Definition bcast1 (f : R -> R -> R) : vec -> vec -> option vec :=
  bcast (fun x y => Some (f x y)).
Definition bcast2 (f : R -> R -> R) : mat -> mat -> option mat :=
  bcast (bcast1 f).

(** [np.sum(np.array(rows), axis = 0)]: the column sums of a stack of
    rows, which must be equally long to form an array.  The sum of no rows
    is the scalar 0, kept as the one-element array that broadcasts like
    it. *)
Definition sum_axis0 (rows : list vec) : option vec :=
  match rows with
  | [] => Some [0]
  | r :: rs =>
      if forallb (fun r' => bool_decide (length r' = length r)) rs
      then Some (foldl (zip_with Rplus) r rs)
      else None
  end.

(** [y.flatten()] of a 2-D array. *)
Definition flatten (m : mat) : vec := concat m.

(** [np.stack([a, b], axis = -1)]: rows [[a_i, b_i]]; the two arrays must
    have one shape. *)
Definition stack_last (a b : vec) : option mat :=
  if decide (length a = length b) then Some (zip_with (fun x y => [x; y]) a b)
  else None.

(** [np.ones(n) * x]. *)
Definition ones_times (n : nat) (x : R) : vec := replicate n (1 * x).

End Np.

(** ** The Gaussian densities the notebooks refer to *)

(** Density of the normal distribution with mean [mu] and variance [var]. *)
Definition normal_pdf (mu var x : R) : R :=
  / sqrt (2 * PI * var) * exp (- ((x - mu) ^ 2 / (2 * var))).

(** Density of the multivariate normal distribution with a diagonal
    covariance matrix, as the first notebook writes it: the determinant is
    the product of the diagonal and the quadratic form is the sum of the
    squared deviations over the variances.  [n] is the dimension. *)
Definition mvn_diag_pdf (n : nat) (mean var d : Np.vec) : R :=
  / (Rpower (2 * PI) (INR n / 2) * sqrt (Np.prod var))
  * exp (- (1 / 2) * Np.sum (zip_with Rdiv
                               (zip_with (fun x m => (x - m) ^ 2) d mean) var)).

(** The prior of mu_0 as the text of the first notebook writes it:
    1 / (2 pi) exp(-mu_0^2 / 2). *)
Definition documented_prior (mu_0 : R) : R :=
  / (2 * PI) * exp (- (1 / 2) * mu_0 ^ 2).

(** ** Notebook: conditional masked autoregressive flow *)

Module CMAF.

(** [np.arange(1, 6)**2] *)
Definition squares : Np.vec := map (fun k => INR k ^ 2) (seq 1 5).

Definition log_gauss (x mu sigma : R) : R :=
  -0.5 * ln (2 * PI * sigma) - 0.5 * (x - mu) ^ 2 / sigma ^ 2.

(** [mu] and [cov] have shape (n, 5) and (m, 5).  In [d - mu] the last
    axes, [len(d)] and 5, must broadcast whatever the number of rows is, an
    array without rows included; a list of rows does not carry the number
    of columns of such an array, so this check is written out. *)
Definition analytic_log_likelihood (d mu_0 sigma_0 : Np.vec) : option Np.vec :=
  let mu : Np.mat := map (fun m => map (fun q => q * m) squares) mu_0 in
  let cov : Np.mat := map (fun s => map (fun q => q * s ^ 2) squares) sigma_0 in
  let c : Np.vec :=
    map (fun row => -2.5 * ln (2 * PI) - 0.5 * ln (Np.prod row)) cov in
  if decide (length d = 5%nat \/ length d = 1%nat) then
    diff ← Np.bcast2 Rminus [d] mu;
    quot ← Np.bcast2 Rdiv (map (map (fun v => v ^ 2)) diff) cov;
    let l : Np.vec := map (fun row => -0.5 * Np.sum row) quot in
    Np.bcast1 Rplus c l
  else None.

(** The closed form of the log-likelihood for one parameter pair: the sums
    run over k = 1..5 and [d_k] is the k-th entry of the data vector. *)
Definition gaussian5_log_density (d : Np.vec) (m s : R) : R :=
  - (5 / 2) * ln (2 * PI)
  - (1 / 2) * Np.sum (map (fun k => ln (INR k ^ 2 * s ^ 2)) (seq 1 5))
  - (1 / 2) * Np.sum (map (fun k => (nth (k - 1) d 0 - INR k ^ 2 * m) ^ 2
                                     / (INR k ^ 2 * s ^ 2)) (seq 1 5)).

Section Posteriors.
(** The ten mock measurements drawn at the top of the notebook, and the
    trained flow's [NDE.log_prob(mock, p).numpy()]. *)
Variable mock_measurement : list Np.vec.
Variable NDE_log_prob : Np.vec -> list (R * R) -> Np.vec.

(** The sampler hands over an array of shape (n, 2): one row
    [(mu_0, sigma_0)] per live point. *)
Definition ultranest_NDE_posterior (p : list (R * R)) : option Np.vec :=
  likelihood ←
    Np.sum_axis0 (map (fun mock => NDE_log_prob mock p) mock_measurement);
  let prior := map (fun q => log_gauss 0.0 q.1 1.0) p in
  Np.bcast1 Rplus prior likelihood.

Definition ultranest_analytic_posterior (p : list (R * R)) : option Np.vec :=
  per_mock ← mapM (fun mock => analytic_log_likelihood mock (map fst p) (map snd p))
                   mock_measurement;
  likelihood ← Np.sum_axis0 per_mock;
  let prior := map (fun q => log_gauss 0.0 q.1 1.0) p in
  Np.bcast1 Rplus prior likelihood.
End Posteriors.

Definition transformation (p : list (R * R)) : list (R * R) :=
  map (fun q => (-5 + 10 * q.1, 0.5 + 4.5 * q.2)) p.

End CMAF.

(** ** Notebook: conditional Gaussian kernel density estimate *)

Module KDETask.

Section Task.
(** [kde.score_samples(total, conditional_features = ...)] of the estimator
    fitted earlier in the notebook; the class comes from the package
    [conditional_kde].  Its result is flattened by the caller, so it is
    kept as an array of any shape. *)
Variable score_samples : Np.mat -> list string -> Np.mat.

Definition log_prior (y : Np.mat) : Np.vec :=
  let l := map (map (fun v => - v ^ 2 / 4)) y in
  Np.flatten l.

Definition log_likelihood (y : Np.mat) (x : R) : option Np.vec :=
  let N := length y in
  total ← Np.stack_last (Np.ones_times N x) (Np.flatten y);
  let log_probs := score_samples total ["y"%string] in
  Some (Np.flatten log_probs).

Definition total_distribution (y : Np.mat) : option Np.vec :=
  ll ← log_likelihood y 1.0;
  Np.bcast1 Rplus (log_prior y) ll.
End Task.

(** The local [y] is computed and not used. *)
Definition transform (p : Np.mat) : Np.mat :=
  let y := map (map (fun v => -5 + 10 * v)) p in
  map (map (fun v => v * 10 - 5)) p.

End KDETask.

(** ** Notebook: conditional Gaussian posterior *)

(** Running sums and boolean-mask indexing. *)
Module NpIndex.

(** [np.cumsum] of a 1-D array. *)
Fixpoint cumsum_from (acc : R) (w : Np.vec) : Np.vec :=
  match w with
  | [] => []
  | x :: w' => (acc + x) :: cumsum_from (acc + x) w'
  end.

Definition cumsum (w : Np.vec) : Np.vec := cumsum_from 0 w.

(** [v > t], elementwise. *)
Definition greater (v : Np.vec) (t : R) : list bool :=
  map (fun c => if Rlt_dec t c then true else false) v.

(** [a[mask]] for a boolean mask along the first axis: the entries at the
    true positions; a mask of another length than the axis raises. *)
Fixpoint select {A} (a : list A) (mask : list bool) : list A :=
  match a, mask with
  | x :: a', b :: mask' => if b then x :: select a' mask' else select a' mask'
  | _, _ => []
  end.

Definition bool_index {A} (a : list A) (mask : list bool) : option (list A) :=
  if decide (length a = length mask) then Some (select a mask) else None.

End NpIndex.

Module CGP.

(** The two entries of [results['weighted_samples']] that [cornerplot]
    reads: the sample points, one row each, and their weights. *)
Record weighted_samples := {
  points : Np.mat;
  weights : Np.vec
}.

Section Cornerplot.
(** [corner.corner(data, weights = ..., fig = ..., color = ..., ...)] of the
    plotting package, its other arguments being constants; figures and
    colours are whatever the package takes. *)
Context {Fig Color : Type}.
Variable corner : Np.mat -> Np.vec -> Fig -> Color -> Fig.

Definition cornerplot (results : weighted_samples) (fig : Fig) (color : Color)
    : option Fig :=
  let data := points results in
  let weights := weights results in
  let cumsumweights := NpIndex.cumsum weights in
  let mask := NpIndex.greater cumsumweights 1e-4 in
  d ← NpIndex.bool_index data mask;
  w ← NpIndex.bool_index weights mask;
  Some (corner d w fig color).
End Cornerplot.

End CGP.

(** ** The conditional kernel density estimator

    [ConditionalGaussianKernelDensity] is imported by the second notebook
    from the package [conditional_kde]; the notebook only constructs it,
    fits it and queries it.  What follows is not a translation of code: it
    is a model of the estimator as it is described, kept to the parts
    reasoned about below.  The class and all of its methods are missing from
    the sources. *)

Module CKDE.

(** Modelled from the spec: the three error kinds the estimator raises
    (the class [ConditionalGaussianKernelDensity] is missing from the
    sources). *)
Inductive error :=
  | DegenerateInputError
  | InvalidConditioningError
  | ShapeMismatchError.

(** A call either returns a value or raises; nothing is returned on failure. *)
Inductive result (A : Type) :=
  | Ok (a : A)
  | Raise (e : error).
Arguments Ok {A} a.
Arguments Raise {A} e.

(** Modelled from the spec: the configuration surface.  The whitening
    algorithm is none, "rescale" or "zca"; the bandwidth is "scott",
    "optimized" or a fixed positive float. *)
Inductive whitening_algorithm :=
  | NoWhitening
  | Rescale
  | ZCA.

Inductive bandwidth_config :=
  | Scott
  | Optimized
  | Fixed (h : posreal).

(** Modelled from the spec: the state fixed at [fit]: the ordered feature
    names, the stored sample matrix, the whitening transform with its
    inverse (as matrices), and the bandwidth. *)
Record fitted := {
  features : list string;
  samples : Np.mat;
  whiten : Np.mat;
  unwhiten : Np.mat;
  bandwidth : R
}.

(** *** Empirical moments and matrices *)

Definition mean (v : Np.vec) : R := Np.sum v / INR (length v).

Definition column (d : nat) (m : Np.mat) : Np.vec :=
  map (fun row => nth d row 0) m.

(** Modelled from the spec: the empirical covariance of dimensions [i] and
    [j] of the sample matrix (computed inside the missing [fit]); the
    empirical variance of a dimension is its diagonal entry. *)
Definition covariance_entry (x : Np.mat) (i j : nat) : R :=
  mean (map (fun row => (nth i row 0 - mean (column i x))
                        * (nth j row 0 - mean (column j x))) x).

Definition variance (x : Np.mat) (d : nat) : R := covariance_entry x d d.

Definition big_sum (n : nat) (f : nat -> R) : R := Np.sum (map f (seq 0 n)).

Definition matrix (n : nat) (f : nat -> nat -> R) : Np.mat :=
  map (fun i => map (f i) (seq 0 n)) (seq 0 n).

Definition entry (m : Np.mat) (i j : nat) : R := nth j (nth i m []) 0.

Definition covariance (n : nat) (x : Np.mat) : Np.mat :=
  matrix n (covariance_entry x).

Definition diagonal (n : nat) (f : nat -> R) : Np.mat :=
  matrix n (fun i j => if decide (i = j) then f i else 0).

Definition mat_vec (m : Np.mat) (x : Np.vec) : Np.vec :=
  map (fun row => Np.sum (zip_with Rmult row x)) m.

(** *** Bandwidth search *)

(** Modelled from the spec: the kernel density estimate of the missing
    class is the uniform mixture of isotropic Gaussian kernels of covariance
    h^2 I centred at the (whitened) training samples. *)
Definition kernel (h : R) (centre x : Np.vec) : R :=
  Np.prod (zip_with (fun c xi => normal_pdf c (h ^ 2) xi) centre x).

Definition kde_density (h : R) (train : Np.mat) (x : Np.vec) : R :=
  mean (map (fun centre => kernel h centre x) train).

(** Modelled from the spec: the K-fold score of a candidate bandwidth in
    the missing bandwidth search.  A fold is the pair of the rows it is
    fitted on (the other folds) and the rows held out; the score is the
    mean over the folds of the mean held-out log-density. *)
Definition cv_score (folds : list (Np.mat * Np.mat)) (h : R) : R :=
  mean (map (fun fold =>
               mean (map (fun x => ln (kde_density h fold.1 x)) fold.2))
          folds).

(** Modelled from the spec: the missing bandwidth search keeps the
    candidate of maximal score and, among candidates of equal score, the
    smaller bandwidth.  The grid has at least one step: a first candidate
    and the further ones. *)
Definition prefer (score : R -> R) (best c : R) : R :=
  if Rlt_dec (score best) (score c) then c
  else if Rlt_dec (score c) (score best) then best
  else if Rlt_dec c best then c else best.

Definition select_bandwidth (score : R -> R) (c : R) (cs : list R) : R :=
  foldl (prefer score) c cs.

(** Modelled from the spec, design notes: the rule ascribed to the original
    search, which keeps the first candidate of maximal score in enumeration
    order. *)
Definition prefer_first (score : R -> R) (best c : R) : R :=
  if Rlt_dec (score best) (score c) then c else best.

Definition select_first (score : R -> R) (c : R) (cs : list R) : R :=
  foldl (prefer_first score) c cs.

(** Modelled from the spec: how the missing [fit] resolves the bandwidth
    for [n_samples] whitened samples of [n_features] dimensions: Scott's
    rule n^(-1/(d+4)), the fixed value as it is, or the search over the grid
    [candidate :: candidates] scored on [folds]. *)
Definition resolve_bandwidth (cfg : bandwidth_config)
    (n_samples n_features : nat) (candidate : R) (candidates : list R)
    (folds : list (Np.mat * Np.mat)) : R :=
  match cfg with
  | Scott => Rpower (INR n_samples) (- / (INR n_features + 4))
  | Fixed h => pos h
  | Optimized => select_bandwidth (cv_score folds) candidate candidates
  end.

(** *** Fitting *)

Definition any_zero (v : Np.vec) : bool :=
  existsb (fun x => if Req_dec_T x 0 then true else false) v.

Definition any_at_most (tol : R) (v : Np.vec) : bool :=
  existsb (fun x => if Rle_dec x tol then true else false) v.

Section Fit.
(** The eigendecomposition routine of a symmetric matrix (eigenvalues, and
    eigenvectors as the columns of a matrix), the threshold at or under
    which an eigenvalue counts as near zero, and the assignment of the
    whitened samples to cross-validation folds. *)
Variable eigh : Np.mat -> Np.vec * Np.mat.
Variable tol : R.
Variable assign_folds : Np.mat -> list (Np.mat * Np.mat).

(** Modelled from the spec: the whitening transform of the missing [fit]
    and its inverse.  "rescale" divides each dimension by its empirical
    standard deviation and fails on a zero variance; "zca" is
    eigenvectors . diag(1 / sqrt eigenvalues) . eigenvectors^T and fails on a
    near-zero eigenvalue of the empirical covariance. *)
Definition whitening_transform (alg : whitening_algorithm) (n : nat)
    (x : Np.mat) : result (Np.mat * Np.mat) :=
  match alg with
  | NoWhitening => Ok (diagonal n (fun _ => 1), diagonal n (fun _ => 1))
  | Rescale =>
      if any_zero (map (variance x) (seq 0 n)) then Raise DegenerateInputError
      else Ok (diagonal n (fun i => / sqrt (variance x i)),
               diagonal n (fun i => sqrt (variance x i)))
  | ZCA =>
      let decomposition := eigh (covariance n x) in
      let w := decomposition.1 in
      let v := decomposition.2 in
      if any_at_most tol w then Raise DegenerateInputError
      else Ok (matrix n (fun i j =>
                 big_sum n (fun k => entry v i k * / sqrt (nth k w 0) * entry v j k)),
               matrix n (fun i j =>
                 big_sum n (fun k => entry v i k * sqrt (nth k w 0) * entry v j k)))
  end.

(** Modelled from the spec: the missing [fit(samples, feature_names)]
    computes the whitening transform, resolves the bandwidth on the
    whitened samples and stores the state; a failure of the whitening step
    is the failure of [fit]. *)
Definition fit (alg : whitening_algorithm) (bw : bandwidth_config)
    (candidate : R) (candidates : list R)
    (x : Np.mat) (feature_names : list string) : result fitted :=
  let n := length feature_names in
  match whitening_transform alg n x with
  | Raise e => Raise e
  | Ok w =>
      let whitened := map (mat_vec w.1) x in
      Ok {| features := feature_names;
            samples := whitened;
            whiten := w.1;
            unwhiten := w.2;
            bandwidth := resolve_bandwidth bw (length x) n candidate candidates
                           (assign_folds whitened) |}
  end.
End Fit.

(** *** Queries *)

(** Modelled from the spec: the check the missing queries make on a
    conditioning request: every requested name is a fitted feature and at
    least one feature stays free. *)
Definition free_features (feats cond : list string) : list string :=
  filter (fun f => f ∉ cond) feats.

Definition valid_conditioning (feats cond : list string) : bool :=
  forallb (fun c => bool_decide (c ∈ feats)) cond
  && negb (bool_decide (free_features feats cond = [])).

Section Queries.
(** The numerical work of the two queries, which the statements below do
    not depend on: the conditional log-density of one query row, and the
    draw of [n] samples from a random source of type [G]. *)
Context {G : Type}.
Variable conditional_log_density : fitted -> list string -> Np.vec -> R.
Variable draw : fitted -> gmap string R -> nat -> bool -> G -> Np.mat.

(** Modelled from the spec: the missing
    [score_samples(points, conditional_features)] checks the conditioning
    request and the column count of the query points against the number of
    fitted features, and returns one log-density per row.  The description
    does not order the two checks; the conditioning request is checked
    first here. *)
Definition score_samples (st : fitted) (points : Np.mat)
    (conditional_features : list string) : result Np.vec :=
  if negb (valid_conditioning (features st) conditional_features)
  then Raise InvalidConditioningError
  else if negb (forallb (fun row => bool_decide (length row = length (features st)))
                  points)
  then Raise ShapeMismatchError
  else Ok (map (conditional_log_density st conditional_features) points).

(** Modelled from the spec: the missing
    [sample(conditionals, n_samples, keep_dims)] conditions on the keys of
    the dictionary [conditionals]. *)
Definition sample (st : fitted) (conditionals : gmap string R)
    (n_samples : nat) (keep_dims : bool) (gen : G) : result Np.mat :=
  if negb (valid_conditioning (features st) (elements (dom conditionals)))
  then Raise InvalidConditioningError
  else Ok (draw st conditionals n_samples keep_dims gen).
End Queries.

(** *** Degenerate inputs *)

(** A symmetric matrix is singular when it sends a nonzero vector to 0. *)
Definition singular (n : nat) (c : Np.mat) : Prop :=
  exists v : nat -> R,
    (exists i, (i < n)%nat /\ v i <> 0)
    /\ forall i, (i < n)%nat -> big_sum n (fun j => entry c i j * v j) = 0.

Definition kronecker (i j : nat) : R := if decide (i = j) then 1 else 0.

(** What is expected of the eigendecomposition of the n x n matrix [c]: n
    eigenvalues [w], an orthogonal matrix [v], and column k of [v] an
    eigenvector of [c] for the eigenvalue [w_k]. *)
Definition eigendecomposition (n : nat) (c : Np.mat) (wv : Np.vec * Np.mat) : Prop :=
  length wv.1 = n
  /\ (forall k l, (k < n)%nat -> (l < n)%nat ->
        big_sum n (fun i => entry wv.2 i k * entry wv.2 i l) = kronecker k l)
  /\ (forall i j, (i < n)%nat -> (j < n)%nat ->
        big_sum n (fun k => entry wv.2 i k * entry wv.2 j k) = kronecker i j)
  /\ (forall i k, (i < n)%nat -> (k < n)%nat ->
        big_sum n (fun j => entry c i j * entry wv.2 j k)
        = nth k wv.1 0 * entry wv.2 i k).

End CKDE.

(** ** Auxiliary notions used in the statements and proofs *)

(** What [analytic_log_likelihood] computes for one parameter pair, before
    any logarithm is split. *)
Definition analytic_row (d : Np.vec) (m s : R) : R :=
  (-2.5 * ln (2 * PI) - 0.5 * ln (Np.prod (map (fun q => q * s ^ 2) CMAF.squares)))
  + -0.5 * Np.sum (zip_with Rdiv
                     (map (fun v => v ^ 2)
                        (zip_with Rminus d (map (fun q => q * m) CMAF.squares)))
                     (map (fun q => q * s ^ 2) CMAF.squares)).

(** [b] is a candidate of [l] with maximal score and, among the candidates
    of that score, the smallest. *)
Definition smallest_maximiser (score : R -> R) (l : list R) (b : R) : Prop :=
  b ∈ l /\
  forall c, c ∈ l -> score c <= score b /\ (score c = score b -> b <= c).

(** * Proofs *)

(** ** Broadcasting *)

Lemma mapM_total {A B} (g : A -> B) (l : list A) :
  mapM (fun x => Some (g x)) l = Some (map g l).
Proof. induction l as [|x l IH]; simpl; [done|]. by rewrite IH. Qed.

(** A one-row operand is paired with every row of the other one, whatever
    the number of rows. *)
Lemma bcast_row_l {A B C} (f : A -> B -> option C) (x : A) (b : list B) :
  Np.bcast f [x] b = mapM (f x) b.
Proof.
  unfold Np.bcast. case_decide as Hlen; [|done].
  destruct b as [|y [|z b]]; simplify_eq/=. done.
Qed.

Lemma bcast_same_length {A B C} (f : A -> B -> option C) a b :
  length a = length b ->
  Np.bcast f a b = mapM (fun xy => f xy.1 xy.2) (zip a b).
Proof. intros Hlen. unfold Np.bcast. by rewrite decide_True. Qed.

Lemma bcast1_same_length f (a b : Np.vec) :
  length a = length b -> Np.bcast1 f a b = Some (zip_with f a b).
Proof.
  intros Hlen. unfold Np.bcast1. rewrite bcast_same_length by done.
  rewrite (mapM_total (fun xy => f xy.1 xy.2)).
  f_equal. clear Hlen. revert b.
  induction a as [|x a IH]; intros [|y b]; simpl; [done..|]. by rewrite IH.
Qed.

Lemma bcast_row_r {A B C} (f : A -> B -> option C) (a : list A) (y : B) :
  Np.bcast f a [y] = mapM (fun x => f x y) a.
Proof.
  unfold Np.bcast. case_decide as Hlen.
  - destruct a as [|x [|z a]]; simplify_eq/=. done.
  - destruct a as [|x [|z a]]; simplify_eq/=; done.
Qed.

(** A one-element array is added to every element of the other one. *)
Lemma bcast1_scalar_r f (a : Np.vec) (c : R) :
  Np.bcast1 f a [c] = Some (map (fun x => f x c) a).
Proof.
  unfold Np.bcast1. rewrite bcast_row_r.
  apply (mapM_total (fun x => f x c)).
Qed.

Lemma bcast1_scalar_l f (x : R) (b : Np.vec) :
  Np.bcast1 f [x] b = Some (map (f x) b).
Proof. unfold Np.bcast1. rewrite bcast_row_l. apply mapM_total. Qed.

(** Two lengths that differ, neither of them 1, do not broadcast. *)
Lemma bcast_mismatch {A B C} (f : A -> B -> option C) a b :
  length a <> length b -> length a <> 1%nat -> length b <> 1%nat ->
  Np.bcast f a b = None.
Proof.
  intros Hne Ha Hb. unfold Np.bcast. rewrite decide_False by done.
  destruct a as [|x [|??]], b as [|y [|??]]; simplify_eq/=; done.
Qed.

Lemma bcast2_row_l f (d : Np.vec) (rows : Np.mat) :
  Forall (fun row => length row = length d) rows ->
  Np.bcast2 f [d] rows = Some (map (zip_with f d) rows).
Proof.
  intros Hrows. unfold Np.bcast2. rewrite bcast_row_l.
  induction Hrows as [|row rows Hrow _ IH]; simpl; [done|].
  rewrite bcast1_same_length by done. simpl. by rewrite IH.
Qed.

Lemma bcast2_same_shape f (a b : Np.mat) :
  Forall2 (fun r1 r2 => length r1 = length r2) a b ->
  Np.bcast2 f a b = Some (zip_with (zip_with f) a b).
Proof.
  intros Hshape. unfold Np.bcast2.
  rewrite bcast_same_length by (by eapply Forall2_length).
  induction Hshape as [|r1 r2 a b Hrow _ IH]; simpl; [done|].
  rewrite bcast1_same_length by done. simpl. by rewrite IH.
Qed.

(** ** The analytic likelihood of the first notebook *)

Lemma two_pi_pos : 0 < 2 * PI.
Proof. pose proof PI_RGT_0. lra. Qed.

Lemma analytic_log_likelihood_rows d mu_0 sigma_0 :
  length d = 5%nat -> length mu_0 = length sigma_0 ->
  CMAF.analytic_log_likelihood d mu_0 sigma_0
  = Some (zip_with (analytic_row d) mu_0 sigma_0).
Proof.
  intros Hd Hlen. unfold CMAF.analytic_log_likelihood.
  rewrite decide_True by (by left).
  rewrite bcast2_row_l.
  2:{ apply Forall_forall. intros row [m [-> _]]%list_elem_of_fmap.
      by rewrite Hd. }
  cbn [mbind option_bind].
  rewrite bcast2_same_shape.
  2:{ clear -Hd Hlen. revert sigma_0 Hlen.
      induction mu_0 as [|m mu_0 IH]; intros [|s sigma_0] Hl;
        cbn [map length] in *; simplify_eq; constructor; auto.
      rewrite !length_map, length_zip_with by (rewrite !length_map; done).
      by rewrite Hd. }
  cbn [mbind option_bind]. rewrite bcast1_same_length.
  2:{ rewrite !length_map, length_zip_with; rewrite !length_map; lia. }
  f_equal. clear Hd. revert sigma_0 Hlen.
  induction mu_0 as [|m mu_0 IH]; intros [|s sigma_0] Hl;
    cbn [map length zip_with] in *; simplify_eq; [done|].
  f_equal. by apply IH.
Qed.

Lemma ln_prod (v : Np.vec) :
  Forall (fun x => 0 < x) v -> 0 < Np.prod v /\ ln (Np.prod v) = Np.sum (map ln v).
Proof.
  induction 1 as [|x v Hx _ [IHpos IH]]; simpl.
  - split; [lra|apply ln_1].
  - split; [by apply Rmult_lt_0_compat|].
    rewrite ln_mult by done. by rewrite IH.
Qed.

Lemma map_zip_with_sq (d mean : Np.vec) :
  map (fun v => v ^ 2) (zip_with Rminus d mean)
  = zip_with (fun x m => (x - m) ^ 2) d mean.
Proof.
  revert mean. induction d as [|x d IH]; intros [|m mean]; simpl; [done..|].
  by rewrite <- IH.
Qed.

Lemma ln_mvn_diag_pdf n mean var d :
  0 < Np.prod var ->
  ln (mvn_diag_pdf n mean var d)
  = - (INR n / 2) * ln (2 * PI) - 1 / 2 * ln (Np.prod var)
    - 1 / 2 * Np.sum (zip_with Rdiv (zip_with (fun x m => (x - m) ^ 2) d mean) var).
Proof.
  intros Hvar. unfold mvn_diag_pdf.
  assert (0 < Rpower (2 * PI) (INR n / 2)) as Hpow by apply exp_pos.
  assert (0 < sqrt (Np.prod var)) as Hsqrt by by apply sqrt_lt_R0.
  rewrite ln_mult; [|apply Rinv_0_lt_compat, Rmult_lt_0_compat; done|apply exp_pos].
  rewrite ln_Rinv by (by apply Rmult_lt_0_compat).
  rewrite ln_mult by done. rewrite ln_exp, ln_Rpower.
  rewrite <- Rpower_sqrt, ln_Rpower by done. lra.
Qed.

Lemma squares_scaled_pos (s : R) :
  s <> 0 -> Forall (fun x => 0 < x) (map (fun q => q * s ^ 2) CMAF.squares).
Proof.
  intros Hs. assert (0 < s ^ 2) by (simpl; nra).
  unfold CMAF.squares. cbn [seq map]. repeat constructor; simpl; nra.
Qed.

Lemma analytic_row_closed_form d m s :
  length d = 5%nat -> s <> 0 ->
  analytic_row d m s = CMAF.gaussian5_log_density d m s.
Proof.
  intros Hd Hs.
  destruct d as [|d1 [|d2 [|d3 [|d4 [|d5 [|]]]]]]; simplify_eq/=.
  unfold analytic_row, CMAF.gaussian5_log_density.
  destruct (ln_prod _ (squares_scaled_pos s Hs)) as [_ ->].
  unfold CMAF.squares. cbn [seq map zip_with Np.sum foldr nth Nat.sub].
  lra.
Qed.

Lemma analytic_row_log_density d m s :
  s <> 0 ->
  analytic_row d m s
  = ln (mvn_diag_pdf 5 (map (fun q => q * m) CMAF.squares)
          (map (fun q => q * s ^ 2) CMAF.squares) d).
Proof.
  intros Hs.
  destruct (ln_prod _ (squares_scaled_pos s Hs)) as [Hpos _].
  rewrite ln_mvn_diag_pdf by done.
  unfold analytic_row. rewrite map_zip_with_sq. simpl INR. lra.
Qed.

(** C8.  For a data vector [d] of shape (5,) and parameter arrays [mu_0],
    [sigma_0] of one length, [analytic_log_likelihood] returns an array of
    that length, and at every index i with sigma_0[i] <> 0 its entry is
    -(5/2) log(2 pi) - (1/2) sum_k log(k^2 sigma_0[i]^2)
    - (1/2) sum_k (d_k - k^2 mu_0[i])^2 / (k^2 sigma_0[i]^2), k = 1..5, which
    is the logarithm of the density at [d] of the 5-dimensional Gaussian
    with mean (1,4,9,16,25) mu_0[i] and covariance
    diag(1,4,9,16,25) sigma_0[i]^2. *)
Theorem analytic_log_likelihood_gaussian (d mu_0 sigma_0 : list R) :
  length d = 5%nat ->
  length mu_0 = length sigma_0 ->
  exists out,
    CMAF.analytic_log_likelihood d mu_0 sigma_0 = Some out /\
    length out = length mu_0 /\
    forall i m s, mu_0 !! i = Some m -> sigma_0 !! i = Some s -> s <> 0 ->
      out !! i = Some (CMAF.gaussian5_log_density d m s) /\
      CMAF.gaussian5_log_density d m s
      = ln (mvn_diag_pdf 5 (map (fun q => q * m) CMAF.squares)
              (map (fun q => q * s ^ 2) CMAF.squares) d).
Proof.
  intros Hd Hlen.
  exists (zip_with (analytic_row d) mu_0 sigma_0).
  split; [by apply analytic_log_likelihood_rows|].
  split; [by apply length_zip_with_l_eq|].
  intros i m s Hm Hs Hs0.
  rewrite <- analytic_row_closed_form by done.
  split; [|by apply analytic_row_log_density].
  rewrite lookup_zip_with, Hm. simpl. by rewrite Hs.
Qed.

Lemma analytic_log_likelihood_gaussian_witness :
  exists out,
    CMAF.analytic_log_likelihood [1; 4; 9; 16; 25] [1; 2] [1; 3] = Some out /\
    length out = 2%nat /\
    forall i m s, [1; 2] !! i = Some m -> [1; 3] !! i = Some s -> s <> 0 ->
      out !! i = Some (CMAF.gaussian5_log_density [1; 4; 9; 16; 25] m s) /\
      CMAF.gaussian5_log_density [1; 4; 9; 16; 25] m s
      = ln (mvn_diag_pdf 5 (map (fun q => q * m) CMAF.squares)
              (map (fun q => q * s ^ 2) CMAF.squares) [1; 4; 9; 16; 25]).
Proof.
  apply (analytic_log_likelihood_gaussian [1; 4; 9; 16; 25] [1; 2] [1; 3]).
  - reflexivity.
  - reflexivity.
Defined.

(** ** The one-dimensional Gaussian and [log_gauss] *)

Lemma ln_normal_pdf (mu var x : R) :
  0 < var ->
  ln (normal_pdf mu var x)
  = - (1 / 2) * ln (2 * PI * var) - (x - mu) ^ 2 / (2 * var).
Proof.
  intros Hvar. unfold normal_pdf. pose proof two_pi_pos as Hpi.
  assert (0 < 2 * PI * var) as Hpos by by apply Rmult_lt_0_compat.
  assert (0 < sqrt (2 * PI * var)) as Hsqrt by by apply sqrt_lt_R0.
  rewrite ln_mult; [|by apply Rinv_0_lt_compat|apply exp_pos].
  rewrite ln_Rinv, ln_exp by done.
  rewrite <- Rpower_sqrt, ln_Rpower by done. lra.
Qed.

(** The two normalisation terms differ by [ln sigma / 2]. *)
Lemma log_gauss_offset (x mu sigma : R) :
  0 < sigma ->
  CMAF.log_gauss x mu sigma
  = ln (normal_pdf mu (sigma ^ 2) x) + 1 / 2 * ln sigma.
Proof.
  intros Hsigma. pose proof two_pi_pos as Hpi.
  assert (0 < sigma ^ 2) as Hvar by (simpl; nra).
  rewrite ln_normal_pdf by done. unfold CMAF.log_gauss.
  replace (2 * PI * sigma ^ 2) with (2 * PI * sigma * sigma) by (simpl; ring).
  rewrite (ln_mult (2 * PI * sigma)) by (try apply Rmult_lt_0_compat; done).
  replace ((x - mu) ^ 2 / (2 * sigma ^ 2)) with ((x - mu) ^ 2 / sigma ^ 2 / 2)
    by (field; lra).
  unfold Rdiv at 1. lra.
Qed.

Lemma log_gauss_unit (x mu : R) :
  CMAF.log_gauss x mu 1.0 = ln (normal_pdf mu 1 x).
Proof.
  replace 1.0 with 1 by lra.
  rewrite log_gauss_offset, ln_1 by lra.
  replace (1 ^ 2) with 1 by (simpl; ring). lra.
Qed.

(** C10.  For sigma > 0, [log_gauss x mu sigma] is
    -(1/2) log(2 pi sigma) - (1/2) (x - mu)^2 / sigma^2; it is the
    log-density of N(mu, sigma^2) at [x] exactly when sigma = 1; and the prior
    term of both nested-sampling callbacks is [log_gauss] at sigma = 1.0,
    where it is the log-density of N(mu_0, 1) at 0. *)
Theorem log_gauss_normal_iff_unit_sigma (x mu sigma : R) :
  0 < sigma ->
  CMAF.log_gauss x mu sigma
  = - (1 / 2) * ln (2 * PI * sigma) - (1 / 2) * (x - mu) ^ 2 / sigma ^ 2
  /\ (CMAF.log_gauss x mu sigma = ln (normal_pdf mu (sigma ^ 2) x) <-> sigma = 1)
  /\ (forall mock_measurement NDE_log_prob p,
        CMAF.ultranest_NDE_posterior mock_measurement NDE_log_prob p
        = (likelihood ← Np.sum_axis0
                           (map (fun mock => NDE_log_prob mock p) mock_measurement);
           Np.bcast1 Rplus
             (map (fun q => ln (normal_pdf q.1 1 0)) p) likelihood))
  /\ (forall mock_measurement p,
        CMAF.ultranest_analytic_posterior mock_measurement p
        = (per_mock ← mapM (fun mock =>
                              CMAF.analytic_log_likelihood mock
                                (map fst p) (map snd p)) mock_measurement;
           likelihood ← Np.sum_axis0 per_mock;
           Np.bcast1 Rplus
             (map (fun q => ln (normal_pdf q.1 1 0)) p) likelihood)).
Proof.
  intros Hsigma.
  assert (forall p : list (R * R),
            map (fun q => CMAF.log_gauss 0.0 q.1 1.0) p
            = map (fun q => ln (normal_pdf q.1 1 0)) p) as Hprior.
  { intros p. apply map_ext. intros q. rewrite log_gauss_unit.
    by replace 0.0 with 0 by lra. }
  split; [unfold CMAF.log_gauss; lra|].
  split; [|split].
  - rewrite log_gauss_offset by done. split.
    + intros Heq. apply ln_inv; [done|lra|]. rewrite ln_1. lra.
    + intros ->. rewrite ln_1. lra.
  - intros. unfold CMAF.ultranest_NDE_posterior. by rewrite Hprior.
  - intros. unfold CMAF.ultranest_analytic_posterior. by rewrite Hprior.
Qed.

Lemma log_gauss_normal_iff_unit_sigma_witness :
  CMAF.log_gauss 0 3 2
  = - (1 / 2) * ln (2 * PI * 2) - (1 / 2) * (0 - 3) ^ 2 / 2 ^ 2
  /\ (CMAF.log_gauss 0 3 2 = ln (normal_pdf 3 (2 ^ 2) 0) <-> 2 = 1).
Proof.
  destruct (log_gauss_normal_iff_unit_sigma 0 3 2) as (Hform & Hiff & _).
  - lra.
  - split; [exact Hform|exact Hiff].
Defined.

(** ** The prior and the sampled distribution of the KDE notebook *)

Lemma flatten_column {A} (g : R -> A) (h : A -> R) (ys : list R) :
  concat (map (map h) (map (fun v => [g v]) ys)) = map (fun v => h (g v)) ys.
Proof. induction ys as [|v ys IH]; simpl; [done|]. by rewrite IH. Qed.

Lemma log_prior_column (ys : Np.vec) :
  KDETask.log_prior (map (fun v => [v]) ys) = map (fun v => - v ^ 2 / 4) ys.
Proof.
  unfold KDETask.log_prior, Np.flatten.
  apply (flatten_column (fun v => v) (fun v => - v ^ 2 / 4)).
Qed.

Lemma four_pi_gt_1 : 1 < 4 * PI.
Proof. pose proof PI_RGT_0. pose proof PI2_3_2. unfold PI2 in *. lra. Qed.

Lemma total_distribution_column
    (score_samples : list (list R) -> list string -> list (list R))
    (ys : list R) :
  KDETask.total_distribution score_samples (map (fun v => [v]) ys)
  = Np.bcast1 Rplus (map (fun v => - v ^ 2 / 4) ys)
      (Np.flatten (score_samples (map (fun v => [1; v]) ys) ["y"%string])).
Proof.
  unfold KDETask.total_distribution, KDETask.log_likelihood.
  rewrite log_prior_column.
  assert (Np.flatten (map (fun v => [v]) ys) = ys) as ->.
  { unfold Np.flatten. induction ys as [|v ys IH]; simpl; [done|].
    by rewrite IH. }
  unfold Np.stack_last, Np.ones_times.
  rewrite decide_True by (by rewrite length_replicate, length_map).
  cbn [mbind option_bind]. do 3 f_equal.
  induction ys as [|v ys IH]; simpl; [done|].
  rewrite IH. do 2 f_equal. lra.
Qed.

(** C9.  On an array of shape (N, 1) [log_prior] returns the flat array of
    the N values -y_i^2 / 4.  Each is the log-density of N(0, sigma^2 = 2) at
    y_i with the constant -(1/2) log(4 pi) left out, and that constant is
    not zero.  [total_distribution] queries [score_samples] on the rows
    [[1.0, y_i]] conditioned on "y" and adds the prior to the flattened
    answer: N values give the N sums -y_i^2 / 4 + l_i; a single value is
    added to every prior value; a single point has its prior value added to
    every value of the answer; any other pair of lengths raises. *)
Theorem log_prior_unnormalised (ys : Np.vec) :
  KDETask.log_prior (map (fun v => [v]) ys) = map (fun v => - v ^ 2 / 4) ys
  /\ length (KDETask.log_prior (map (fun v => [v]) ys)) = length ys
  /\ (forall v, - v ^ 2 / 4 = ln (normal_pdf 0 2 v) - - (1 / 2) * ln (4 * PI))
  /\ - (1 / 2) * ln (4 * PI) < 0
  /\ (forall score_samples,
        let s :=
          Np.flatten (score_samples (map (fun v => [1; v]) ys) ["y"%string]) in
        let out :=
          KDETask.total_distribution score_samples (map (fun v => [v]) ys) in
        (length s = length ys ->
           out = Some (zip_with (fun v l => - v ^ 2 / 4 + l) ys s))
        /\ (forall c, s = [c] -> out = Some (map (fun v => - v ^ 2 / 4 + c) ys))
        /\ (forall v, ys = [v] -> out = Some (map (fun l => - v ^ 2 / 4 + l) s))
        /\ (length s <> length ys -> length s <> 1%nat -> length ys <> 1%nat ->
            out = None)).
Proof.
  split; [apply log_prior_column|].
  split; [by rewrite log_prior_column, length_map|].
  split; [|split].
  - intros v. rewrite ln_normal_pdf by lra.
    replace (2 * PI * 2) with (4 * PI) by ring.
    replace (v - 0) with v by ring. lra.
  - pose proof four_pi_gt_1 as Hpi.
    assert (0 < ln (4 * PI)); [|lra].
    rewrite <- ln_1. apply ln_increasing; lra.
  - intros score_samples. cbn zeta. rewrite total_distribution_column.
    set (s := Np.flatten _). clearbody s. repeat split.
    + intros Hlen. rewrite bcast1_same_length by (by rewrite length_map).
      by rewrite zip_with_fmap_l.
    + intros c ->. by rewrite bcast1_scalar_r, map_map.
    + intros v ->. apply bcast1_scalar_l.
    + intros Hne Hs Hys. apply bcast_mismatch; by rewrite ?length_map.
Qed.

Lemma log_prior_unnormalised_witness :
  KDETask.total_distribution (fun rows _ => map (fun row => [Np.prod row]) rows)
    (map (fun v => [v]) [1; 3; 5])
  = Some (zip_with (fun v l => - v ^ 2 / 4 + l) [1; 3; 5]
            (Np.flatten (map (fun row => [Np.prod row])
                           (map (fun v => [1; v]) [1; 3; 5])))).
Proof.
  destruct (log_prior_unnormalised [1; 3; 5]) as (_ & _ & _ & _ & Htotal).
  destruct (Htotal (fun rows _ => map (fun row => [Np.prod row]) rows))
    as (Hsums & _).
  apply Hsums. reflexivity.
Defined.

(** ** Bandwidth search: the candidate kept *)

Section Selection.
Variable score : R -> R.

Lemma prefer_step (seen : list R) (b c : R) :
  smallest_maximiser score seen b ->
  smallest_maximiser score (seen ++ [c]) (CKDE.prefer score b c).
Proof.
  intros [Hin Hbest]. split.
  { unfold CKDE.prefer. rewrite elem_of_app, list_elem_of_singleton.
    repeat destruct (Rlt_dec _ _); auto. }
  intros c' Hc'. apply elem_of_app in Hc'. destruct Hc' as [Hc'|Hc'].
  - destruct (Hbest c' Hc') as [Hle Htie]. unfold CKDE.prefer.
    repeat destruct (Rlt_dec _ _); split; intros; try lra.
    all: assert (b <= c') by (apply Htie; lra); lra.
  - apply list_elem_of_singleton in Hc'. subst c'. unfold CKDE.prefer.
    repeat destruct (Rlt_dec _ _); split; intros; lra.
Qed.

Lemma foldl_prefer (seen cs : list R) (b : R) :
  smallest_maximiser score seen b ->
  smallest_maximiser score (seen ++ cs) (foldl (CKDE.prefer score) b cs).
Proof.
  revert seen b. induction cs as [|c cs IH]; intros seen b Hb; simpl.
  - by rewrite app_nil_r.
  - replace (seen ++ c :: cs) with ((seen ++ [c]) ++ cs)
      by (by rewrite <- app_assoc).
    apply IH. by apply prefer_step.
Qed.

Lemma select_bandwidth_smallest_maximiser (c : R) (cs : list R) :
  smallest_maximiser score (c :: cs) (CKDE.select_bandwidth score c cs).
Proof.
  apply (foldl_prefer [c] cs c).
  split; [by apply list_elem_of_singleton|].
  intros c' ->%list_elem_of_singleton. split; intros; lra.
Qed.
End Selection.

(** On a grid enumerated in increasing order the first candidate of maximal
    score is also the smallest one, so the two rules keep the same
    bandwidth. *)
Lemma select_first_increasing (score : R -> R) (c : R) (cs : list R) :
  StronglySorted Rlt (c :: cs) ->
  CKDE.select_first score c cs = CKDE.select_bandwidth score c cs.
Proof.
  intros Hsorted.
  apply StronglySorted_inv in Hsorted as [Hcs Hc].
  unfold CKDE.select_first, CKDE.select_bandwidth.
  revert c Hc. induction Hcs as [|c' cs Hcs IH Hc']; intros b Hb; [done|].
  apply Forall_cons in Hb as [Hbc Hb]. simpl.
  assert (CKDE.prefer_first score b c' = CKDE.prefer score b c') as ->.
  { unfold CKDE.prefer_first, CKDE.prefer.
    repeat destruct (Rlt_dec _ _); try done; lra. }
  apply IH. unfold CKDE.prefer. repeat destruct (Rlt_dec _ _); done.
Qed.

(** Enumerated otherwise, the rules can part: with no fold every candidate
    scores the same, the first-enumerated rule keeps 2 and the search keeps
    1. *)
Lemma select_first_differs :
  CKDE.select_first (CKDE.cv_score []) 2 [1; 3] = 2
  /\ CKDE.select_bandwidth (CKDE.cv_score []) 2 [1; 3] = 1.
Proof.
  unfold CKDE.select_first, CKDE.select_bandwidth, CKDE.cv_score.
  cbn [foldl map]. unfold CKDE.prefer_first, CKDE.prefer.
  split; repeat (destruct (Rlt_dec _ _); try lra); done.
Qed.

(** C5.  With the bandwidth configured as "optimized", the bandwidth is
    resolved to a candidate of the grid of maximal cross-validated score,
    and every candidate that ties with it on the score is at least as
    large: of tied maximal candidates the smallest is selected.  On a grid
    enumerated in increasing order the first candidate of maximal score is
    that same bandwidth.  It is the bandwidth a successful [fit] stores, and
    [fit] succeeds whenever the whitening step does (always, without
    whitening). *)
Theorem optimized_bandwidth_tie_break
    (eigh : list (list R) -> list R * list (list R)) (tol : R)
    (assign_folds : list (list R) -> list (list (list R) * list (list R)))
    (alg : CKDE.whitening_algorithm) (candidate : R) (candidates : list R)
    (x : list (list R)) (feature_names : list string) :
  (forall n_samples n_features folds,
      let h := CKDE.resolve_bandwidth CKDE.Optimized n_samples n_features
                 candidate candidates folds in
      h ∈ candidate :: candidates
      /\ (forall c, c ∈ candidate :: candidates ->
            CKDE.cv_score folds c <= CKDE.cv_score folds h)
      /\ (forall c, c ∈ candidate :: candidates ->
            CKDE.cv_score folds c = CKDE.cv_score folds h -> h <= c)
      /\ (StronglySorted Rlt (candidate :: candidates) ->
          CKDE.select_first (CKDE.cv_score folds) candidate candidates = h))
  /\ (forall st,
        CKDE.fit eigh tol assign_folds alg CKDE.Optimized candidate candidates
          x feature_names = CKDE.Ok st ->
        CKDE.bandwidth st
        = CKDE.resolve_bandwidth CKDE.Optimized (length x) (length feature_names)
            candidate candidates (assign_folds (CKDE.samples st)))
  /\ (exists st,
        CKDE.fit eigh tol assign_folds CKDE.NoWhitening CKDE.Optimized
          candidate candidates x feature_names = CKDE.Ok st).
Proof.
  split; [|split].
  - intros n_samples n_features folds.
    destruct (select_bandwidth_smallest_maximiser (CKDE.cv_score folds)
                candidate candidates) as (Hin & Hbest).
    cbn zeta. split; [exact Hin|].
    split; [|split]; [intros c Hc; by apply Hbest..|].
    apply select_first_increasing.
  - intros st. unfold CKDE.fit.
    destruct (CKDE.whitening_transform _ _ _ _ _) as [w|e]; [|done].
    intros [= <-]. reflexivity.
  - eexists. reflexivity.
Qed.

Lemma optimized_bandwidth_tie_break_witness :
  CKDE.resolve_bandwidth CKDE.Optimized 4 2 2 [1; 3] [] = 1.
Proof.
  destruct (optimized_bandwidth_tie_break
              (fun _ => ([], [])) 0 (fun _ => []) CKDE.NoWhitening 2 [1; 3]
              [[0; 0]; [1; 1]; [0; 1]; [1; 0]] ["x"; "y"]%string)
    as (Hgrid & _ & _).
  destruct (Hgrid 4%nat 2%nat []) as (Hin & _ & Htie & _).
  apply Rle_antisym.
  - apply Htie; [|reflexivity].
    apply elem_of_cons. right. apply elem_of_cons. by left.
  - apply elem_of_cons in Hin as [->|Hin]; [lra|].
    apply elem_of_cons in Hin as [->|Hin]; [lra|].
    apply list_elem_of_singleton in Hin as ->. lra.
Defined.

(** ** Conditioning requests *)

Lemma list_to_set_subseteq (l k : list string) :
  list_to_set l ⊆@{gset string} list_to_set k <-> forall x, x ∈ l -> x ∈ k.
Proof.
  split.
  - intros Hsub x Hx. specialize (Hsub x).
    rewrite !elem_of_list_to_set in Hsub. auto.
  - intros Hall x. rewrite !elem_of_list_to_set. auto.
Qed.

(** The check made on the lists is the proper-subset test on the sets of
    names. *)
Lemma valid_conditioning_proper_subset (feats cond : list string) :
  CKDE.valid_conditioning feats cond = true
  <-> list_to_set cond ⊂@{gset string} list_to_set feats.
Proof.
  unfold CKDE.valid_conditioning, CKDE.free_features, strict.
  rewrite andb_true_iff, negb_true_iff, bool_decide_eq_false, forallb_forall.
  rewrite !list_to_set_subseteq.
  assert ((forall c, In c cond -> bool_decide (c ∈ feats) = true)
          <-> (forall c, c ∈ cond -> c ∈ feats)) as ->.
  { split.
    - intros Hall c Hc. eapply bool_decide_eq_true_1, Hall.
      by apply list_elem_of_In.
    - intros Hsub c Hc%list_elem_of_In. by apply bool_decide_eq_true_2, Hsub. }
  assert (filter (fun f => f ∉ cond) feats = []
          <-> (forall f, f ∈ feats -> f ∈ cond)) as ->; [|done].
  split.
  - intros Hnil f Hf.
    destruct (decide (f ∈ cond)) as [|Hnot]; [done|].
    by destruct (filter_nil_not_elem_of _ _ f Hnil Hnot).
  - intros Hsub. apply elem_of_nil_inv. intros f [Hnot Hf]%list_elem_of_filter.
    by apply Hnot, Hsub.
Qed.

(** C4.  A query whose conditioning names are not a proper subset of the
    fitted feature set raises InvalidConditioningError and returns nothing:
    [score_samples] for every query matrix, [sample] for every dictionary of
    conditioning values; in particular when the request names the whole
    feature set. *)
Theorem invalid_conditioning_raises {G : Type}
    (conditional_log_density : CKDE.fitted -> list string -> list R -> R)
    (draw : CKDE.fitted -> gmap string R -> nat -> bool -> G -> list (list R))
    (st : CKDE.fitted) :
  (forall points cond,
      ~ list_to_set cond ⊂@{gset string} list_to_set (CKDE.features st) ->
      CKDE.score_samples conditional_log_density st points cond
      = CKDE.Raise CKDE.InvalidConditioningError)
  /\ (forall conditionals n_samples keep_dims gen,
        ~ dom conditionals ⊂@{gset string} list_to_set (CKDE.features st) ->
        CKDE.sample draw st conditionals n_samples keep_dims gen
        = CKDE.Raise CKDE.InvalidConditioningError)
  /\ (forall points,
        CKDE.score_samples conditional_log_density st points (CKDE.features st)
        = CKDE.Raise CKDE.InvalidConditioningError)
  /\ (forall conditionals n_samples keep_dims gen,
        dom conditionals = list_to_set (CKDE.features st) ->
        CKDE.sample draw st conditionals n_samples keep_dims gen
        = CKDE.Raise CKDE.InvalidConditioningError).
Proof.
  assert (forall cond,
            ~ list_to_set cond ⊂@{gset string} list_to_set (CKDE.features st) ->
            negb (CKDE.valid_conditioning (CKDE.features st) cond) = true)
    as Hinvalid.
  { intros cond Hnot. apply negb_true_iff, not_true_is_false.
    by rewrite valid_conditioning_proper_subset. }
  assert (forall conditionals : gmap string R,
            list_to_set (elements (dom conditionals)) = dom conditionals)
    as Hkeys by (intros; apply list_to_set_elements_L).
  split; [|split; [|split]].
  - intros points cond Hnot. unfold CKDE.score_samples.
    by rewrite Hinvalid.
  - intros conditionals n keep gen Hnot. unfold CKDE.sample.
    rewrite Hinvalid; [done|]. by rewrite Hkeys.
  - intros points. unfold CKDE.score_samples.
    rewrite Hinvalid; [done|]. intros [_ Hstrict]. by apply Hstrict.
  - intros conditionals n keep gen Hall. unfold CKDE.sample.
    rewrite Hinvalid; [done|]. rewrite Hkeys, Hall.
    intros [_ Hstrict]. by apply Hstrict.
Qed.

(** The estimator of the notebook is fitted on the features "x" and "y";
    naming both leaves nothing free. *)
Lemma invalid_conditioning_raises_witness :
  CKDE.score_samples (fun _ _ _ => 0)
    {| CKDE.features := ["x"; "y"]%string; CKDE.samples := [[0; -5]; [10; 5]];
       CKDE.whiten := [[1; 0]; [0; 1]]; CKDE.unwhiten := [[1; 0]; [0; 1]];
       CKDE.bandwidth := 1 |}
    [[1; 1.5]] ["y"; "x"; "y"]%string
  = CKDE.Raise CKDE.InvalidConditioningError.
Proof.
  apply (invalid_conditioning_raises (G := unit) (fun _ _ _ => 0)
           (fun _ _ _ _ _ => [])).
  simpl. intros [_ Hstrict]. apply Hstrict. set_solver.
Defined.

(** With a valid conditioning request, a query row whose length is not the
    number of fitted features raises ShapeMismatchError. *)
Lemma shape_mismatch_raises
    (conditional_log_density : CKDE.fitted -> list string -> list R -> R)
    (st : CKDE.fitted) (points : list (list R)) (cond : list string) (row : list R) :
  list_to_set cond ⊂@{gset string} list_to_set (CKDE.features st) ->
  row ∈ points -> length row <> length (CKDE.features st) ->
  CKDE.score_samples conditional_log_density st points cond
  = CKDE.Raise CKDE.ShapeMismatchError.
Proof.
  intros Hvalid%valid_conditioning_proper_subset Hrow Hlen.
  unfold CKDE.score_samples. rewrite Hvalid. cbn [negb].
  assert (forallb (fun row => bool_decide (length row = length (CKDE.features st)))
            points = false) as ->; [|done].
  apply not_true_is_false. rewrite forallb_forall. intros Hall.
  apply Hlen. eapply bool_decide_eq_true_1, Hall. by apply list_elem_of_In.
Qed.

(** A query with both defects raises the conditioning error in this model;
    no ordering of the two checks gives each defect its own error on such a
    query. *)
Lemma both_defects_raise_conditioning_error
    (conditional_log_density : CKDE.fitted -> list string -> list R -> R) :
  CKDE.score_samples conditional_log_density
    {| CKDE.features := ["x"; "y"]%string; CKDE.samples := [[0; -5]; [10; 5]];
       CKDE.whiten := [[1; 0]; [0; 1]]; CKDE.unwhiten := [[1; 0]; [0; 1]];
       CKDE.bandwidth := 1 |}
    [[1; 2; 3]] ["x"; "y"]%string
  = CKDE.Raise CKDE.InvalidConditioningError.
Proof. reflexivity. Qed.

(** ** Finite sums and matrices *)

Lemma sum_app (l k : list R) : Np.sum (l ++ k) = Np.sum l + Np.sum k.
Proof. induction l as [|x l IH]; simpl; [lra|]. rewrite IH. lra. Qed.

Lemma big_sum_S (n : nat) (f : nat -> R) :
  CKDE.big_sum (S n) f = CKDE.big_sum n f + f n.
Proof.
  unfold CKDE.big_sum. rewrite seq_S, map_app, sum_app. simpl. lra.
Qed.

Lemma big_sum_ext (n : nat) (f g : nat -> R) :
  (forall i, (i < n)%nat -> f i = g i) -> CKDE.big_sum n f = CKDE.big_sum n g.
Proof.
  induction n as [|n IH]; intros Hfg; [done|].
  rewrite !big_sum_S, IH, Hfg by auto with lia. done.
Qed.

Lemma big_sum_zero (n : nat) : CKDE.big_sum n (fun _ => 0) = 0.
Proof. induction n as [|n IH]; [done|]. rewrite big_sum_S, IH. lra. Qed.

Lemma big_sum_plus (n : nat) (f g : nat -> R) :
  CKDE.big_sum n (fun i => f i + g i) = CKDE.big_sum n f + CKDE.big_sum n g.
Proof.
  induction n as [|n IH]; [unfold CKDE.big_sum; simpl; lra|].
  rewrite !big_sum_S, IH. lra.
Qed.

Lemma big_sum_scale (n : nat) (a : R) (f : nat -> R) :
  CKDE.big_sum n (fun i => a * f i) = a * CKDE.big_sum n f.
Proof.
  induction n as [|n IH]; [unfold CKDE.big_sum; simpl; lra|].
  rewrite !big_sum_S, IH. lra.
Qed.

Lemma big_sum_exchange (n m : nat) (f : nat -> nat -> R) :
  CKDE.big_sum n (fun i => CKDE.big_sum m (fun j => f i j))
  = CKDE.big_sum m (fun j => CKDE.big_sum n (fun i => f i j)).
Proof.
  induction n as [|n IH].
  - rewrite (big_sum_ext m _ (fun _ => 0)) by done.
    by rewrite big_sum_zero.
  - rewrite big_sum_S, IH, <- big_sum_plus.
    apply big_sum_ext. intros j _. by rewrite big_sum_S.
Qed.

Lemma big_sum_kronecker (n k : nat) (f : nat -> R) :
  (k < n)%nat -> CKDE.big_sum n (fun j => CKDE.kronecker k j * f j) = f k.
Proof.
  unfold CKDE.kronecker. induction n as [|n IH]; intros Hk; [lia|].
  rewrite big_sum_S. destruct (decide (k = n)) as [->|Hne].
  - rewrite (big_sum_ext n _ (fun _ => 0)).
    + rewrite big_sum_zero. lra.
    + intros i Hi. rewrite decide_False by lia. lra.
  - rewrite IH by lia. lra.
Qed.

Lemma big_sum_nonzero (n : nat) (f : nat -> R) :
  CKDE.big_sum n f <> 0 -> exists k, (k < n)%nat /\ f k <> 0.
Proof.
  induction n as [|n IH]; intros Hsum; [by destruct Hsum|].
  rewrite big_sum_S in Hsum.
  destruct (Req_dec_T (f n) 0) as [Hfn|Hfn]; [|exists n; auto with lia].
  destruct IH as (k & Hk & Hfk); [lra|]. exists k. auto with lia.
Qed.

Lemma entry_matrix (n : nat) (f : nat -> nat -> R) (i j : nat) :
  (i < n)%nat -> (j < n)%nat -> CKDE.entry (CKDE.matrix n f) i j = f i j.
Proof.
  intros Hi Hj. unfold CKDE.entry, CKDE.matrix.
  rewrite (nth_indep _ [] (map (f 0%nat) (seq 0 n)))
    by (by rewrite length_map, length_seq).
  rewrite (map_nth (fun i => map (f i) (seq 0 n))), seq_nth by done.
  rewrite (nth_indep _ 0 (f i 0%nat)) by (by rewrite length_map, length_seq).
  rewrite (map_nth (f i)), seq_nth by done. done.
Qed.

(** ** Degenerate inputs at fit time *)

Lemma any_zero_true (v : list R) (x : R) :
  x ∈ v -> x = 0 -> CKDE.any_zero v = true.
Proof.
  intros Hx Hx0. unfold CKDE.any_zero. apply existsb_exists.
  exists x. split; [by apply list_elem_of_In|].
  by destruct (Req_dec_T x 0).
Qed.

Lemma any_at_most_true (tol : R) (v : list R) (x : R) :
  x ∈ v -> x <= tol -> CKDE.any_at_most tol v = true.
Proof.
  intros Hx Hle. unfold CKDE.any_at_most. apply existsb_exists.
  exists x. split; [by apply list_elem_of_In|].
  by destruct (Rle_dec x tol).
Qed.

Lemma covariance_entry_sym (x : list (list R)) (i j : nat) :
  CKDE.covariance_entry x i j = CKDE.covariance_entry x j i.
Proof.
  unfold CKDE.covariance_entry. f_equal. apply map_ext. intros row. ring.
Qed.

Lemma sum_constant (c : R) (x : list (list R)) :
  Np.sum (map (fun _ => c) x) = INR (length x) * c.
Proof.
  induction x as [|row x IH]; [simpl; lra|].
  cbn [map Np.sum foldr length]. fold (Np.sum (map (fun _ => c) x)).
  rewrite IH, S_INR. lra.
Qed.

(** A dimension on which all samples agree has covariance 0 with every
    dimension. *)
Lemma covariance_entry_constant (x : list (list R)) (i d : nat) (c : R) :
  Forall (fun row => nth d row 0 = c) x -> CKDE.covariance_entry x i d = 0.
Proof.
  intros Hconst. unfold CKDE.covariance_entry.
  destruct x as [|row0 x']; [unfold CKDE.mean; simpl; lra|].
  set (x := row0 :: x') in *.
  assert (CKDE.mean (CKDE.column d x) = c) as Hmean.
  { unfold CKDE.mean, CKDE.column.
    rewrite (map_ext_in _ (fun _ => c)).
    - rewrite sum_constant, length_map. field.
      apply not_0_INR. done.
    - intros row Hrow%list_elem_of_In. rewrite Forall_forall in Hconst. auto. }
  rewrite (map_ext_in _ (fun _ => 0)).
  - unfold CKDE.mean. rewrite sum_constant, length_map. field.
    apply not_0_INR. done.
  - intros row Hrow%list_elem_of_In. rewrite Forall_forall in Hconst.
    rewrite Hmean, (Hconst row Hrow). ring.
Qed.

Lemma constant_dimension_singular (n : nat) (x : list (list R)) (d : nat) (c : R) :
  (d < n)%nat -> Forall (fun row => nth d row 0 = c) x ->
  CKDE.singular n (CKDE.covariance n x).
Proof.
  intros Hd Hconst. exists (CKDE.kronecker d). split.
  - exists d. split; [done|]. unfold CKDE.kronecker.
    rewrite decide_True by done. lra.
  - intros i Hi.
    rewrite (big_sum_ext n _ (fun j => CKDE.kronecker d j
                                       * CKDE.entry (CKDE.covariance n x) i j))
      by (intros; ring).
    rewrite big_sum_kronecker by done.
    unfold CKDE.covariance. rewrite entry_matrix by done.
    by eapply covariance_entry_constant.
Qed.

(** A singular symmetric matrix has a zero eigenvalue in any
    eigendecomposition. *)
Lemma singular_zero_eigenvalue (n : nat) (c : list (list R)) wv :
  (forall i j, (i < n)%nat -> (j < n)%nat -> CKDE.entry c i j = CKDE.entry c j i) ->
  CKDE.eigendecomposition n c wv ->
  CKDE.singular n c ->
  exists k, (k < n)%nat /\ nth k wv.1 0 = 0.
Proof.
  intros Hsym (Hlen & Hcols & Hrows & Heig) (v & (i0 & Hi0 & Hv0) & Hnull).
  set (a := fun k => CKDE.big_sum n (fun i => CKDE.entry wv.2 i k * v i)).
  assert (forall k, (k < n)%nat -> nth k wv.1 0 * a k = 0) as Hzero.
  { intros k Hk. unfold a. rewrite <- big_sum_scale.
    rewrite (big_sum_ext n _
               (fun j => CKDE.big_sum n
                  (fun i => CKDE.entry wv.2 i k * (CKDE.entry c i j * v j)))).
    - rewrite <- big_sum_exchange.
      rewrite (big_sum_ext n _ (fun _ => 0)); [apply big_sum_zero|].
      intros i Hi. rewrite big_sum_scale, Hnull by done. ring.
    - intros j Hj.
      replace (nth k wv.1 0 * (CKDE.entry wv.2 j k * v j))
        with (v j * (nth k wv.1 0 * CKDE.entry wv.2 j k)) by ring.
      rewrite <- Heig, <- big_sum_scale by done.
      apply big_sum_ext. intros i Hi. rewrite (Hsym j i) by done. ring. }
  assert (CKDE.big_sum n (fun k => CKDE.entry wv.2 i0 k * a k) = v i0) as Hexp.
  { unfold a.
    rewrite (big_sum_ext n _
               (fun k => CKDE.big_sum n
                  (fun i => CKDE.entry wv.2 i0 k * CKDE.entry wv.2 i k * v i))).
    - rewrite big_sum_exchange.
      rewrite (big_sum_ext n _ (fun i => CKDE.kronecker i0 i * v i)).
      + by apply big_sum_kronecker.
      + intros i Hi. rewrite <- Hrows by done.
        rewrite Rmult_comm, <- big_sum_scale. apply big_sum_ext. intros; ring.
    - intros k Hk. rewrite <- big_sum_scale. apply big_sum_ext. intros; ring. }
  destruct (big_sum_nonzero n (fun k => CKDE.entry wv.2 i0 k * a k))
    as (k & Hk & Hak); [by rewrite Hexp|].
  exists k. split; [done|].
  specialize (Hzero k Hk).
  apply Rmult_integral in Hzero as [Hw|Ha]; [done|].
  rewrite Ha in Hak. lra.
Qed.

Lemma covariance_sym (n : nat) (x : list (list R)) (i j : nat) :
  (i < n)%nat -> (j < n)%nat ->
  CKDE.entry (CKDE.covariance n x) i j = CKDE.entry (CKDE.covariance n x) j i.
Proof.
  intros Hi Hj. unfold CKDE.covariance. rewrite !entry_matrix by done.
  apply covariance_entry_sym.
Qed.

Lemma fit_whitening_raises eigh tol assign_folds alg bw candidate candidates
    (x : list (list R)) (feature_names : list string) (e : CKDE.error) :
  CKDE.whitening_transform eigh tol alg (length feature_names) x = CKDE.Raise e ->
  CKDE.fit eigh tol assign_folds alg bw candidate candidates x feature_names
  = CKDE.Raise e.
Proof. intros Hw. unfold CKDE.fit. by rewrite Hw. Qed.

Lemma rescale_zero_variance_raises eigh tol (n : nat) (x : list (list R)) (d : nat) :
  (d < n)%nat -> CKDE.variance x d = 0 ->
  CKDE.whitening_transform eigh tol CKDE.Rescale n x
  = CKDE.Raise CKDE.DegenerateInputError.
Proof.
  intros Hd Hvar. unfold CKDE.whitening_transform.
  rewrite (any_zero_true _ (CKDE.variance x d)); [done| |done].
  apply list_elem_of_fmap. exists d. split; [done|].
  apply elem_of_seq. lia.
Qed.

Lemma zca_small_eigenvalue_raises eigh tol (n : nat) (x : list (list R)) (k : nat) :
  (k < length (eigh (CKDE.covariance n x)).1)%nat ->
  nth k (eigh (CKDE.covariance n x)).1 0 <= tol ->
  CKDE.whitening_transform eigh tol CKDE.ZCA n x
  = CKDE.Raise CKDE.DegenerateInputError.
Proof.
  intros Hk Hle. unfold CKDE.whitening_transform. cbn zeta.
  rewrite (any_at_most_true tol _ (nth k (eigh (CKDE.covariance n x)).1 0));
    [done| |done].
  apply list_elem_of_In, nth_In. done.
Qed.

(** C3.  [fit] raises DegenerateInputError and returns no estimator: under
    "rescale" when a dimension of the samples has zero empirical variance;
    under "zca" when the empirical covariance matrix is singular, or has an
    eigenvalue at or under the near-zero threshold; and, under either, when
    all samples agree in one dimension.  The eigendecomposition routine is
    assumed to return an eigendecomposition of the covariance matrix, and
    the threshold not to be negative. *)
Theorem degenerate_input_raises
    (eigh : list (list R) -> list R * list (list R)) (tol : R)
    (assign_folds : list (list R) -> list (list (list R) * list (list R)))
    (bw : CKDE.bandwidth_config) (candidate : R) (candidates : list R)
    (x : list (list R)) (feature_names : list string) :
  0 <= tol ->
  CKDE.eigendecomposition (length feature_names)
    (CKDE.covariance (length feature_names) x)
    (eigh (CKDE.covariance (length feature_names) x)) ->
  let n := length feature_names in
  let fit alg :=
    CKDE.fit eigh tol assign_folds alg bw candidate candidates x feature_names in
  (forall d, (d < n)%nat -> CKDE.variance x d = 0 ->
     fit CKDE.Rescale = CKDE.Raise CKDE.DegenerateInputError)
  /\ (CKDE.singular n (CKDE.covariance n x) ->
      fit CKDE.ZCA = CKDE.Raise CKDE.DegenerateInputError)
  /\ (forall k, (k < n)%nat ->
        nth k (eigh (CKDE.covariance n x)).1 0 <= tol ->
        fit CKDE.ZCA = CKDE.Raise CKDE.DegenerateInputError)
  /\ (forall d c, (d < n)%nat -> Forall (fun row => nth d row 0 = c) x ->
        fit CKDE.Rescale = CKDE.Raise CKDE.DegenerateInputError
        /\ fit CKDE.ZCA = CKDE.Raise CKDE.DegenerateInputError).
Proof.
  intros Htol Heig n fit.
  assert (forall k, (k < n)%nat ->
            nth k (eigh (CKDE.covariance n x)).1 0 <= tol ->
            fit CKDE.ZCA = CKDE.Raise CKDE.DegenerateInputError) as Hsmall.
  { intros k Hk Hle. apply fit_whitening_raises.
    apply (zca_small_eigenvalue_raises eigh tol n x k); [|done].
    destruct Heig as [Hlen _]. fold n in Hlen. by rewrite Hlen. }
  assert (CKDE.singular n (CKDE.covariance n x) ->
          fit CKDE.ZCA = CKDE.Raise CKDE.DegenerateInputError) as Hsingular.
  { intros Hsing.
    destruct (singular_zero_eigenvalue n _ _ (covariance_sym n x) Heig Hsing)
      as (k & Hk & Hzero).
    apply (Hsmall k Hk). unfold n. by rewrite Hzero. }
  assert (forall d, (d < n)%nat -> CKDE.variance x d = 0 ->
            fit CKDE.Rescale = CKDE.Raise CKDE.DegenerateInputError) as Hvar.
  { intros d Hd Hzero. apply fit_whitening_raises.
    by apply (rescale_zero_variance_raises eigh tol n x d). }
  repeat split; try done.
  - apply (Hvar d); [done|]. by eapply covariance_entry_constant.
  - apply Hsingular. by eapply constant_dimension_singular.
Qed.

(** Two samples that agree on "y": the covariance matrix is diag(1, 0), with
    the unit vectors as eigenvectors. *)
Lemma degenerate_input_raises_witness :
  CKDE.fit (fun _ => ([1; 0], [[1; 0]; [0; 1]])) 0 (fun _ => [])
    CKDE.Rescale CKDE.Scott 1 [] [[1; 5]; [3; 5]] ["x"; "y"]%string
  = CKDE.Raise CKDE.DegenerateInputError
  /\ CKDE.fit (fun _ => ([1; 0], [[1; 0]; [0; 1]])) 0 (fun _ => [])
       CKDE.ZCA CKDE.Scott 1 [] [[1; 5]; [3; 5]] ["x"; "y"]%string
     = CKDE.Raise CKDE.DegenerateInputError.
Proof.
  destruct (degenerate_input_raises
              (fun _ => ([1; 0], [[1; 0]; [0; 1]])) 0 (fun _ => [])
              CKDE.Scott 1 [] [[1; 5]; [3; 5]] ["x"; "y"]%string)
    as (_ & _ & _ & Hconst).
  - lra.
  - split; [reflexivity|].
    unfold CKDE.big_sum, CKDE.entry, CKDE.kronecker, CKDE.covariance,
      CKDE.matrix, CKDE.covariance_entry, CKDE.mean, CKDE.column.
    repeat split; intros [|[|?]] [|[|?]] ? ?; simpl in *; try lia; lra.
  - apply (Hconst 1%nat 5); [simpl; lia|]. repeat constructor.
Defined.

(** ** The prior transforms and the posterior of several measurements *)

(** The prior transform of the first notebook is a bijection between the
    batches of unit-square points and the batches of points of the prior box
    [-5, 5] x [0.5, 5]: it maps into the box, reaches every batch of the
    box, and maps no two batches to one. *)
Theorem transformation_range :
  (forall p, Forall (fun q => 0 <= q.1 <= 1 /\ 0 <= q.2 <= 1) p ->
     Forall (fun r => -5 <= r.1 <= 5 /\ 0.5 <= r.2 <= 5) (CMAF.transformation p))
  /\ (forall x, Forall (fun r => -5 <= r.1 <= 5 /\ 0.5 <= r.2 <= 5) x ->
        exists p, Forall (fun q => 0 <= q.1 <= 1 /\ 0 <= q.2 <= 1) p
                  /\ CMAF.transformation p = x)
  /\ (forall p p', CMAF.transformation p = CMAF.transformation p' -> p = p').
Proof.
  unfold CMAF.transformation. split; [|split].
  - intros p Hp. apply Forall_fmap. eapply Forall_impl; [exact Hp|].
    intros q Hq. simpl. lra.
  - intros x Hx. induction Hx as [|r x Hr _ (p & Hp & Hx)].
    + exists []. by split.
    + exists (((r.1 + 5) / 10, (r.2 - 0.5) / 4.5) :: p). split.
      * constructor; [simpl; lra|done].
      * cbn [map fst snd]. rewrite Hx. f_equal. destruct r as [r1 r2].
        cbn [fst snd]. f_equal; lra.
  - intros p. induction p as [|q p IH]; intros [|q' p'] Heq;
      cbn [map] in Heq; [done|discriminate..|].
    injection Heq as H1 H2 Hrest. f_equal; [|by apply IH].
    destruct q, q'. cbn [fst snd] in *. f_equal; lra.
Qed.

(** The prior transform of the second notebook returns what its unused
    local [y] holds, and is a bijection, entry by entry, between the arrays
    over [0, 1] and the arrays over [-5, 5]. *)
Theorem transform_range :
  (forall p, KDETask.transform p = map (map (fun v => -5 + 10 * v)) p)
  /\ (forall p, Forall (Forall (fun v => 0 <= v <= 1)) p ->
        Forall (Forall (fun v => -5 <= v <= 5)) (KDETask.transform p))
  /\ (forall y, Forall (Forall (fun v => -5 <= v <= 5)) y ->
        exists p, Forall (Forall (fun v => 0 <= v <= 1)) p
                  /\ KDETask.transform p = y)
  /\ (forall p p', KDETask.transform p = KDETask.transform p' -> p = p').
Proof.
  unfold KDETask.transform. cbn zeta. split; [|split; [|split]].
  - intros p. apply map_ext. intros row. apply map_ext. intros v. lra.
  - intros p Hp. apply Forall_fmap. eapply Forall_impl; [exact Hp|].
    intros row Hrow. apply Forall_fmap. eapply Forall_impl; [exact Hrow|].
    intros v Hv. simpl. lra.
  - intros y Hy. exists (map (map (fun v => (v + 5) / 10)) y). split.
    + apply Forall_fmap. eapply Forall_impl; [exact Hy|].
      intros row Hrow. apply Forall_fmap. eapply Forall_impl; [exact Hrow|].
      intros v Hv. simpl. lra.
    + rewrite map_map. rewrite <- (map_id y) at 2. apply map_ext. intros row.
      rewrite map_map. rewrite <- (map_id row) at 2. apply map_ext.
      intros v. lra.
  - assert (forall row row' : list R,
              map (fun v => v * 10 - 5) row = map (fun v => v * 10 - 5) row' ->
              row = row') as Hrow.
    { intros row. induction row as [|v row IH]; intros [|v' row'] Heq;
        cbn [map] in Heq; [done|discriminate..|].
      injection Heq as Hv Hrest. f_equal; [lra|by apply IH]. }
    intros p. induction p as [|row p IH]; intros [|row' p'] Heq;
      cbn [map] in Heq; [done|discriminate..|].
    injection Heq as Hr Hrest. f_equal; [by apply Hrow|by apply IH].
Qed.

Lemma zip_with_columns {A} (f : R -> R -> A) (p : list (R * R)) :
  zip_with f (map fst p) (map snd p) = map (fun q => f q.1 q.2) p.
Proof. induction p as [|q p IH]; simpl; [done|]. by rewrite IH. Qed.

Lemma zip_with_plus_maps {A} (f g : A -> R) (p : list A) :
  zip_with Rplus (map f p) (map g p) = map (fun q => f q + g q) p.
Proof. induction p as [|q p IH]; simpl; [done|]. by rewrite IH. Qed.

(** Column sums of rows that are all computed over one list of points. *)
Lemma sum_axis0_maps {A B} (g : B -> A -> R) (p : list A) (m : B) (ms : list B) :
  Np.sum_axis0 (map (fun mock => map (g mock) p) (m :: ms))
  = Some (map (fun q => Np.sum (map (fun mock => g mock q) (m :: ms))) p).
Proof.
  cbn [map Np.sum_axis0].
  assert (forallb (fun r' => bool_decide (length r' = length (map (g m) p)))
            (map (fun mock => map (g mock) p) ms) = true) as ->.
  { apply forallb_forall. intros r [mock [<- _]]%in_map_iff.
    apply bool_decide_eq_true_2. by rewrite !length_map. }
  f_equal.
  transitivity (map (fun q => g m q + Np.sum (map (fun mock => g mock q) ms)) p);
    [|done].
  generalize (g m) as f0. induction ms as [|m' ms IH]; intros f0.
  - cbn [map foldl Np.sum foldr]. apply map_ext. intros; lra.
  - cbn [map foldl]. rewrite zip_with_plus_maps, IH.
    apply map_ext. intros q. unfold Np.sum. cbn [map foldr]. lra.
Qed.

(** The prior term plus the column sums of per-measurement rows, all
    computed over one list of points; with no measurement the sum is the
    scalar 0, which broadcasts. *)
Lemma prior_plus_column_sums {A B} (f : A -> R) (g : B -> A -> R)
    (p : list A) (ms : list B) :
  (likelihood ← Np.sum_axis0 (map (fun mock => map (g mock) p) ms);
   Np.bcast1 Rplus (map f p) likelihood)
  = Some (map (fun q => f q + Np.sum (map (fun mock => g mock q) ms)) p).
Proof.
  destruct ms as [|m ms].
  - cbn [map Np.sum_axis0 mbind option_bind Np.sum foldr].
    unfold Np.bcast1. destruct (decide (length p = 1%nat)) as [Hone|Hmany].
    + destruct p as [|q [|??]]; simplify_eq/=.
      rewrite bcast_same_length by done. simpl. done.
    + unfold Np.bcast. rewrite decide_False by (by rewrite length_map).
      destruct (map _ p) as [|x [|??]] eqn:Hmap.
      * destruct p; simplify_eq/=. done.
      * apply (f_equal length) in Hmap. rewrite length_map in Hmap. done.
      * rewrite mapM_total, <- Hmap, map_map. done.
  - rewrite sum_axis0_maps. cbn [mbind option_bind].
    rewrite bcast1_same_length by (by rewrite !length_map).
    by rewrite zip_with_plus_maps.
Qed.

Lemma analytic_posterior_rows (mock_measurement : list (list R)) (p : list (R * R)) :
  Forall (fun mock => length mock = 5%nat) mock_measurement ->
  CMAF.ultranest_analytic_posterior mock_measurement p
  = Some (map (fun q =>
                 ln (normal_pdf q.1 1 0)
                 + Np.sum (map (fun mock => analytic_row mock q.1 q.2)
                             mock_measurement)) p).
Proof.
  intros Hmocks. unfold CMAF.ultranest_analytic_posterior.
  rewrite (Forall_mapM_ext _
             (fun mock => Some (map (fun q => analytic_row mock q.1 q.2) p))).
  2:{ eapply Forall_impl; [exact Hmocks|]. intros mock Hmock. simpl.
      rewrite analytic_log_likelihood_rows by (by rewrite ?length_map).
      by rewrite zip_with_columns. }
  rewrite mapM_total. cbn [mbind option_bind].
  assert (map (fun q => CMAF.log_gauss 0.0 q.1 1.0) p
          = map (fun q => ln (normal_pdf q.1 1 0)) p) as ->.
  { apply map_ext. intros q. rewrite log_gauss_unit.
    by replace 0.0 with 0 by lra. }
  apply (prior_plus_column_sums (fun q => ln (normal_pdf q.1 1 0))
           (fun mock q => analytic_row mock q.1 q.2)).
Qed.

(** The analytic posterior callback is total on well-shaped input: with
    measurements of shape (5,) and no zero sigma_0 among the points, every
    point gets the log-density of N(mu_0, 1) at 0 plus the sum over the
    measurements of the 5-dimensional Gaussian log-densities. *)
Theorem ultranest_analytic_posterior_sum
    (mock_measurement : list (list R)) (p : list (R * R)) :
  Forall (fun mock => length mock = 5%nat) mock_measurement ->
  Forall (fun q => q.2 <> 0) p ->
  CMAF.ultranest_analytic_posterior mock_measurement p
  = Some (map (fun q =>
                 ln (normal_pdf q.1 1 0)
                 + Np.sum (map (fun mock =>
                                  CMAF.gaussian5_log_density mock q.1 q.2)
                             mock_measurement)) p).
Proof.
  intros Hmocks Hp. rewrite analytic_posterior_rows by done. f_equal.
  apply map_ext_in. intros q Hq%list_elem_of_In. f_equal. f_equal.
  apply map_ext_in. intros mock Hmock%list_elem_of_In.
  rewrite Forall_forall in Hmocks. rewrite Forall_forall in Hp.
  apply analytic_row_closed_form; auto.
Qed.

Lemma ultranest_analytic_posterior_sum_witness :
  CMAF.ultranest_analytic_posterior [[1; 4; 9; 16; 25]; [0; 3; 8; 15; 24]]
    [(1, 1); (0, 2)]
  = Some (map (fun q =>
                 ln (normal_pdf q.1 1 0)
                 + Np.sum (map (fun mock =>
                                  CMAF.gaussian5_log_density mock q.1 q.2)
                             [[1; 4; 9; 16; 25]; [0; 3; 8; 15; 24]]))
            [(1, 1); (0, 2)]).
Proof.
  apply (ultranest_analytic_posterior_sum
           [[1; 4; 9; 16; 25]; [0; 3; 8; 15; 24]] [(1, 1); (0, 2)]).
  - repeat constructor.
  - repeat constructor; simpl; lra.
Defined.

(** The prior term of the two callbacks, [log_gauss(0.0, mu_0, 1.0)], is the
    log-density of the standard normal distribution at [mu_0].  The formula
    in the notebook's text has 1 / (2 pi) where the density has
    1 / sqrt(2 pi): its logarithm is lower by the constant log(2 pi) / 2,
    which is not zero. *)
Theorem log_gauss_prior_standard_normal (mu_0 : R) :
  CMAF.log_gauss 0.0 mu_0 1.0 = ln (normal_pdf 0 1 mu_0)
  /\ CMAF.log_gauss 0.0 mu_0 1.0 = - (1 / 2) * ln (2 * PI) - mu_0 ^ 2 / 2
  /\ CMAF.log_gauss 0.0 mu_0 1.0
     = ln (documented_prior mu_0) + 1 / 2 * ln (2 * PI)
  /\ 0 < 1 / 2 * ln (2 * PI).
Proof.
  pose proof two_pi_pos as Hpi.
  assert (CMAF.log_gauss 0.0 mu_0 1.0 = - (1 / 2) * ln (2 * PI) - mu_0 ^ 2 / 2)
    as Hvalue.
  { unfold CMAF.log_gauss. replace (2 * PI * 1.0) with (2 * PI) by lra.
    simpl. lra. }
  split; [|split; [exact Hvalue|split]].
  - rewrite Hvalue, ln_normal_pdf by lra.
    replace (2 * PI * 1) with (2 * PI) by lra. simpl. lra.
  - rewrite Hvalue. unfold documented_prior.
    rewrite (ln_mult (/ (2 * PI)));
      [|by apply Rinv_0_lt_compat|apply exp_pos].
    rewrite ln_Rinv, ln_exp by done. lra.
  - assert (0 < ln (2 * PI)); [|lra].
    rewrite <- ln_1. apply ln_increasing; [lra|].
    pose proof PI2_3_2. unfold PI2 in *. lra.
Qed.

(** Parameter arrays of different lengths, neither of length 1, do not
    broadcast: [analytic_log_likelihood] raises. *)
Theorem analytic_log_likelihood_shape_error (d mu_0 sigma_0 : list R) :
  length d = 5%nat ->
  length mu_0 <> length sigma_0 ->
  length mu_0 <> 1%nat -> length sigma_0 <> 1%nat ->
  CMAF.analytic_log_likelihood d mu_0 sigma_0 = None.
Proof.
  intros Hd Hne Hmu Hsigma. unfold CMAF.analytic_log_likelihood.
  rewrite decide_True by (by left).
  rewrite bcast2_row_l.
  2:{ apply Forall_forall. intros row [m [-> _]]%list_elem_of_fmap.
      by rewrite Hd. }
  cbn [mbind option_bind]. unfold Np.bcast2 at 1, Np.bcast.
  rewrite decide_False by (by rewrite !length_map).
  destruct mu_0 as [|m1 [|m2 mu_0]], sigma_0 as [|s1 [|s2 sigma_0]];
    simplify_eq/=; done.
Qed.

Lemma analytic_log_likelihood_shape_error_witness :
  CMAF.analytic_log_likelihood [1; 4; 9; 16; 25] [1; 2] [1; 2; 3] = None.
Proof.
  apply (analytic_log_likelihood_shape_error [1; 4; 9; 16; 25] [1; 2] [1; 2; 3]).
  - reflexivity.
  - simpl. lia.
  - simpl. lia.
  - simpl. lia.
Defined.

(** ** The weighted samples handed to the corner plot *)

Lemma sum_nonneg (w : list R) : Forall (fun x => 0 <= x) w -> 0 <= Np.sum w.
Proof. induction 1 as [|x w Hx _ IH]; simpl; lra. Qed.

(** Under weights that are not negative the running sums do not decrease,
    so the mask "running sum above t" is a run of [false] followed by a run
    of [true]. *)
Lemma greater_cumsum_split (t : R) (w : list R) (acc : R) :
  Forall (fun x => 0 <= x) w ->
  exists k, (k <= length w)%nat
    /\ NpIndex.greater (NpIndex.cumsum_from acc w) t
       = replicate k false ++ replicate (length w - k) true
    /\ (k = 0%nat \/ acc + Np.sum (take k w) <= t)
    /\ ((k < length w)%nat -> t < acc + Np.sum (take (S k) w)).
Proof.
  intros Hw. revert acc. induction Hw as [|x w Hx Hw IH]; intros acc.
  - exists 0%nat. repeat split; [done|by left|simpl; lia].
  - destruct (IH (acc + x)) as (k & Hk & Hmask & Hlow & Hhigh).
    cbn [NpIndex.cumsum_from NpIndex.greater map].
    fold (NpIndex.greater (NpIndex.cumsum_from (acc + x) w) t).
    destruct (Rlt_dec t (acc + x)) as [Hgt|Hle].
    + assert (k = 0%nat) as ->.
      { destruct Hlow as [|Hlow]; [done|].
        assert (0 <= Np.sum (take k w))
          by (by apply sum_nonneg, Forall_take).
        lra. }
      exists 0%nat. rewrite Hmask. cbn [replicate app length Nat.sub take].
      rewrite Nat.sub_0_r. repeat split; [lia|by left|].
      intros _. simpl. lra.
    + exists (S k). rewrite Hmask. cbn [replicate app length Nat.sub take].
      repeat split; [lia| |].
      * right. destruct Hlow as [->|Hlow]; simpl in *; lra.
      * intros Hlt. assert (k < length w)%nat as Hlt' by lia.
        specialize (Hhigh Hlt'). unfold Np.sum in *. simpl in *. lra.
Qed.

Lemma select_tail {A} (a : list A) (k m : nat) :
  length a = (k + m)%nat ->
  NpIndex.select a (replicate k false ++ replicate m true) = drop k a.
Proof.
  revert a. induction k as [|k IH]; intros a Hlen.
  - simpl. revert a Hlen. induction m as [|m IHm]; intros [|x a] Hlen;
      simplify_eq/=; [done..|]. by rewrite IHm.
  - destruct a as [|x a]; simplify_eq/=. by apply IH.
Qed.

(** [cornerplot] drops a leading run of samples and plots the rest.  With
    as many weights as points, none negative, the samples dropped are the
    first k, their weights add up to at most 1e-4, and one more sample
    would exceed it; when the weights add up to more than 1e-4 something is
    left to plot. *)
Theorem cornerplot_drops_light_prefix {Fig Color : Type}
    (corner : list (list R) -> list R -> Fig -> Color -> Fig)
    (results : CGP.weighted_samples) (fig : Fig) (color : Color) :
  length (CGP.points results) = length (CGP.weights results) ->
  Forall (fun x => 0 <= x) (CGP.weights results) ->
  exists k, (k <= length (CGP.weights results))%nat
    /\ CGP.cornerplot corner results fig color
       = Some (corner (drop k (CGP.points results))
                 (drop k (CGP.weights results)) fig color)
    /\ Np.sum (take k (CGP.weights results)) <= 1e-4
    /\ ((k < length (CGP.weights results))%nat ->
        1e-4 < Np.sum (take (S k) (CGP.weights results)))
    /\ (1e-4 < Np.sum (CGP.weights results) ->
        (k < length (CGP.weights results))%nat).
Proof.
  intros Hlen Hw.
  destruct (greater_cumsum_split 1e-4 (CGP.weights results) 0 Hw)
    as (k & Hk & Hmask & Hlow & Hhigh).
  exists k. split; [done|].
  assert (length (NpIndex.greater (NpIndex.cumsum (CGP.weights results)) 1e-4)
          = length (CGP.weights results)) as Hmlen.
  { unfold NpIndex.cumsum. rewrite Hmask, length_app, !length_replicate. lia. }
  assert (Np.sum (take k (CGP.weights results)) <= 1e-4) as Hsum.
  { destruct Hlow as [->|Hlow]; [simpl|]; lra. }
  repeat split.
  - unfold CGP.cornerplot. cbn zeta. unfold NpIndex.bool_index.
    rewrite !decide_True by (by rewrite Hmlen).
    cbn [mbind option_bind]. unfold NpIndex.cumsum. rewrite Hmask.
    rewrite !select_tail by lia. done.
  - done.
  - intros Hlt. specialize (Hhigh Hlt). lra.
  - intros Htotal. destruct (decide (k < length (CGP.weights results))%nat);
      [done|].
    rewrite take_ge in Hsum by lia. lra.
Qed.

Lemma cornerplot_drops_light_prefix_witness :
  exists k, (k <= 3)%nat
    /\ CGP.cornerplot (fun d w (f : nat) (c : bool) => length d)
         {| CGP.points := [[0; 1]; [1; 1]; [2; 3]];
            CGP.weights := [0.00005; 0.4; 0.59995] |} 0%nat true
       = Some (length (drop k [[0; 1]; [1; 1]; [2; 3]]))
    /\ Np.sum (take k [0.00005; 0.4; 0.59995]) <= 1e-4
    /\ ((k < 3)%nat -> 1e-4 < Np.sum (take (S k) [0.00005; 0.4; 0.59995]))
    /\ (1e-4 < Np.sum [0.00005; 0.4; 0.59995] -> (k < 3)%nat).
Proof.
  apply (cornerplot_drops_light_prefix (fun d w (f : nat) (c : bool) => length d)
           {| CGP.points := [[0; 1]; [1; 1]; [2; 3]];
              CGP.weights := [0.00005; 0.4; 0.59995] |} 0%nat true).
  - reflexivity.
  - repeat constructor; simpl; lra.
Defined.

(** A result with another number of weights than points cannot be plotted:
    the boolean mask, which has one entry per weight, does not fit the
    points and indexing raises. *)
Theorem cornerplot_length_mismatch {Fig Color : Type}
    (corner : list (list R) -> list R -> Fig -> Color -> Fig)
    (results : CGP.weighted_samples) (fig : Fig) (color : Color) :
  length (CGP.points results) <> length (CGP.weights results) ->
  CGP.cornerplot corner results fig color = None.
Proof.
  intros Hlen. unfold CGP.cornerplot. cbn zeta. unfold NpIndex.bool_index.
  assert (forall acc w t, length (NpIndex.greater (NpIndex.cumsum_from acc w) t)
                          = length w) as Hmask.
  { intros acc w t. unfold NpIndex.greater. rewrite length_map.
    revert acc. induction w as [|x w IH]; intros acc; simpl; [done|].
    by rewrite IH. }
  unfold NpIndex.cumsum. rewrite !Hmask.
  destruct (decide (length (CGP.points results) = length (CGP.weights results)));
    [done|reflexivity].
Qed.

Lemma cornerplot_length_mismatch_witness :
  CGP.cornerplot (fun d w (f : nat) (c : bool) => length d)
    {| CGP.points := [[0; 1]; [1; 1]]; CGP.weights := [1] |} 0%nat true
  = None.
Proof.
  apply (cornerplot_length_mismatch (fun d w (f : nat) (c : bool) => length d)).
  simpl. lia.
Defined.

(** ** The callbacks on what the sampler proposes *)

(** The sampler evaluates the posterior on transformed points.  Whatever
    unit-square batch it proposes (a second coordinate that is not negative
    is enough), the analytic posterior of the transformed batch is defined:
    no sigma_0 is zero and no shape error arises; it has one value per
    point. *)
Theorem ultranest_analytic_posterior_on_transformed
    (mock_measurement : list (list R)) (u : list (R * R)) :
  Forall (fun mock => length mock = 5%nat) mock_measurement ->
  Forall (fun q => 0 <= q.2) u ->
  CMAF.ultranest_analytic_posterior mock_measurement (CMAF.transformation u)
  = Some (map (fun q =>
                 ln (normal_pdf (-5 + 10 * q.1) 1 0)
                 + Np.sum (map (fun mock =>
                                  CMAF.gaussian5_log_density mock
                                    (-5 + 10 * q.1) (0.5 + 4.5 * q.2))
                             mock_measurement)) u).
Proof.
  intros Hmocks Hu. rewrite analytic_posterior_rows by done.
  unfold CMAF.transformation. rewrite map_map. f_equal.
  apply map_ext_in. intros q Hq%list_elem_of_In. cbn [fst snd]. f_equal. f_equal.
  apply map_ext_in. intros mock Hmock%list_elem_of_In.
  rewrite Forall_forall in Hmocks. rewrite Forall_forall in Hu.
  apply analytic_row_closed_form; [auto|].
  specialize (Hu q Hq). lra.
Qed.

Lemma ultranest_analytic_posterior_on_transformed_witness :
  CMAF.ultranest_analytic_posterior [[1; 4; 9; 16; 25]]
    (CMAF.transformation [(0, 0); (0.5, 1)])
  = Some (map (fun q =>
                 ln (normal_pdf (-5 + 10 * q.1) 1 0)
                 + Np.sum (map (fun mock =>
                                  CMAF.gaussian5_log_density mock
                                    (-5 + 10 * q.1) (0.5 + 4.5 * q.2))
                             [[1; 4; 9; 16; 25]])) [(0, 0); (0.5, 1)]).
Proof.
  apply (ultranest_analytic_posterior_on_transformed
           [[1; 4; 9; 16; 25]] [(0, 0); (0.5, 1)]).
  - repeat constructor.
  - repeat constructor; simpl; lra.
Defined.

Lemma list_as_map_nth {A} (d : A) (r : list A) :
  r = map (fun i => nth i r d) (seq 0 (length r)).
Proof.
  induction r as [|x r IH]; [done|].
  cbn [length seq map nth]. f_equal.
  rewrite <- seq_shift, map_map. exact IH.
Qed.

(** The flow-based posterior callback: when every [NDE.log_prob(mock, p)]
    holds one value per point, the callback returns one value per point,
    the log-density of N(mu_0, 1) at 0 plus the sum over the measurements
    of the flow's values at that point. *)
Theorem ultranest_NDE_posterior_sum
    (mock_measurement : list (list R))
    (NDE_log_prob : list R -> list (R * R) -> list R) (p : list (R * R)) :
  Forall (fun mock => length (NDE_log_prob mock p) = length p) mock_measurement ->
  CMAF.ultranest_NDE_posterior mock_measurement NDE_log_prob p
  = Some (map (fun i =>
                 ln (normal_pdf (nth i p (0, 0)).1 1 0)
                 + Np.sum (map (fun mock => nth i (NDE_log_prob mock p) 0)
                             mock_measurement))
            (seq 0 (length p))).
Proof.
  intros Hlen. unfold CMAF.ultranest_NDE_posterior.
  assert (map (fun mock => NDE_log_prob mock p) mock_measurement
          = map (fun mock => map (fun i => nth i (NDE_log_prob mock p) 0)
                               (seq 0 (length p))) mock_measurement) as ->.
  { apply map_ext_in. intros mock Hmock%list_elem_of_In.
    rewrite Forall_forall in Hlen. rewrite <- (Hlen mock Hmock).
    apply list_as_map_nth. }
  assert (map (fun q => CMAF.log_gauss 0.0 q.1 1.0) p
          = map (fun i => ln (normal_pdf (nth i p (0, 0)).1 1 0))
              (seq 0 (length p))) as ->.
  { rewrite (list_as_map_nth (0, 0) p) at 1. rewrite map_map.
    apply map_ext. intros i. rewrite log_gauss_unit.
    by replace 0.0 with 0 by lra. }
  apply (prior_plus_column_sums
           (fun i => ln (normal_pdf (nth i p (0, 0)).1 1 0))
           (fun mock i => nth i (NDE_log_prob mock p) 0)).
Qed.

Lemma ultranest_NDE_posterior_sum_witness :
  CMAF.ultranest_NDE_posterior [[1; 4; 9; 16; 25]; [0; 0; 0; 0; 0]]
    (fun mock p => map (fun q => q.1 + q.2) p) [(1, 1); (0, 2)]
  = Some (map (fun i =>
                 ln (normal_pdf (nth i [(1, 1); (0, 2)] (0, 0)).1 1 0)
                 + Np.sum (map (fun mock =>
                                  nth i (map (fun q : R * R => q.1 + q.2)
                                           [(1, 1); (0, 2)]) 0)
                             [[1; 4; 9; 16; 25]; [0; 0; 0; 0; 0]]))
            (seq 0 2)).
Proof.
  apply (ultranest_NDE_posterior_sum [[1; 4; 9; 16; 25]; [0; 0; 0; 0; 0]]
           (fun mock p => map (fun q => q.1 + q.2) p) [(1, 1); (0, 2)]).
  repeat constructor.
Defined.

(** ** Shapes in the KDE notebook's likelihood *)

Lemma length_flatten_uniform (y : list (list R)) (k : nat) :
  Forall (fun row => length row = k) y ->
  length (Np.flatten y) = (length y * k)%nat.
Proof.
  unfold Np.flatten. induction 1 as [|row y Hrow _ IH]; simpl; [done|].
  rewrite length_app, IH, Hrow. done.
Qed.

(** [log_likelihood] takes arrays of one column only.  On a non-empty array
    whose rows have another length, the column of ones and the flattened
    [y] cannot be stacked: [log_likelihood] raises, and so does
    [total_distribution]. *)
Theorem log_likelihood_needs_one_column
    (score_samples : list (list R) -> list string -> list (list R))
    (y : list (list R)) (x : R) (k : nat) :
  y <> [] -> Forall (fun row => length row = k) y -> k <> 1%nat ->
  KDETask.log_likelihood score_samples y x = None
  /\ KDETask.total_distribution score_samples y = None.
Proof.
  intros Hne Hrows Hk.
  assert (forall x', KDETask.log_likelihood score_samples y x' = None) as Hll.
  { intros x'. unfold KDETask.log_likelihood, Np.stack_last, Np.ones_times.
    cbn zeta. rewrite decide_False; [done|].
    rewrite length_replicate, (length_flatten_uniform y k) by done.
    destruct y as [|row y']; [done|]. simpl. nia. }
  split; [apply Hll|].
  unfold KDETask.total_distribution. by rewrite Hll.
Qed.

Lemma log_likelihood_needs_one_column_witness :
  KDETask.log_likelihood (fun _ _ => []) [[1; 2]; [3; 4]] 1 = None
  /\ KDETask.total_distribution (fun _ _ => []) [[1; 2]; [3; 4]] = None.
Proof.
  apply (log_likelihood_needs_one_column (fun _ _ => []) [[1; 2]; [3; 4]] 1 2).
  - discriminate.
  - repeat constructor.
  - lia.
Defined.

(** What [total_distribution] makes of the estimator's answer, on an array
    of shape (N, 1).  N values: one sum per point.  A single value: it is
    added to every prior value.  Any other number of values: the addition
    cannot broadcast and raises. *)
Theorem total_distribution_shapes
    (score_samples : list (list R) -> list string -> list (list R))
    (ys : list R) :
  let s := Np.flatten (score_samples (map (fun v => [1; v]) ys) ["y"%string]) in
  let out := KDETask.total_distribution score_samples (map (fun v => [v]) ys) in
  (length s = length ys ->
     out = Some (zip_with (fun v l => - v ^ 2 / 4 + l) ys s))
  /\ (forall c, s = [c] -> out = Some (map (fun v => - v ^ 2 / 4 + c) ys))
  /\ (length s <> length ys -> length s <> 1%nat -> length ys <> 1%nat ->
      out = None).
Proof.
  cbn zeta. rewrite total_distribution_column.
  set (s := Np.flatten _). split; [|split].
  - intros Hlen. rewrite bcast1_same_length by (by rewrite length_map).
    f_equal. clearbody s. revert s Hlen.
    induction ys as [|v ys IH]; intros [|l s] Hlen; simplify_eq/=; [done|].
    f_equal. by apply IH.
  - intros c ->. unfold Np.bcast1, Np.bcast. rewrite length_map.
    destruct (decide (length ys = length [c])) as [Hone|Hmany].
    + destruct ys as [|v [|??]]; simplify_eq/=. done.
    + destruct (map _ ys) as [|x [|??]] eqn:Hmap.
      * destruct ys; simplify_eq/=. done.
      * apply (f_equal length) in Hmap. rewrite length_map in Hmap. done.
      * rewrite mapM_total, <- Hmap, map_map. done.
  - intros Hne Hs Hys. unfold Np.bcast1, Np.bcast. rewrite length_map.
    rewrite decide_False by done.
    destruct ys as [|v1 [|v2 ys]], s as [|l1 [|l2 s]]; simplify_eq/=; done.
Qed.

Lemma total_distribution_shapes_witness :
  KDETask.total_distribution (fun rows _ => map (fun row => [Np.sum row]) rows)
    (map (fun v => [v]) [2; 4])
  = Some (zip_with (fun v l => - v ^ 2 / 4 + l) [2; 4]
            (Np.flatten (map (fun row => [Np.sum row])
                           (map (fun v => [1; v]) [2; 4])))).
Proof.
  apply (total_distribution_shapes
           (fun rows _ => map (fun row => [Np.sum row]) rows) [2; 4]).
  reflexivity.
Defined.

(** ** The analytic likelihood as a function of its parameters *)

(** The quadratic form of the likelihood, completed to a square in mu. *)
Lemma quadratic_form_complete (d : list R) (m s : R) :
  length d = 5%nat -> s <> 0 ->
  Np.sum (zip_with Rdiv
            (map (fun v => v ^ 2)
               (zip_with Rminus d (map (fun q => q * m) CMAF.squares)))
            (map (fun q => q * s ^ 2) CMAF.squares))
  = Np.sum (zip_with Rdiv
              (map (fun v => v ^ 2)
                 (zip_with Rminus d
                    (map (fun q => q * (Np.sum d / 55)) CMAF.squares)))
              (map (fun q => q * s ^ 2) CMAF.squares))
    + 55 * (m - Np.sum d / 55) ^ 2 / s ^ 2.
Proof.
  intros Hd Hs.
  destruct d as [|d1 [|d2 [|d3 [|d4 [|d5 [|]]]]]]; simplify_eq/=.
  field. done.
Qed.

Lemma analytic_row_quadratic (d : list R) (m s : R) :
  length d = 5%nat -> s <> 0 ->
  analytic_row d m s
  = analytic_row d (Np.sum d / 55) s
    - 55 / 2 * ((m - Np.sum d / 55) ^ 2 / s ^ 2).
Proof.
  intros Hd Hs. unfold analytic_row.
  rewrite (quadratic_form_complete d m s) by done.
  unfold Rdiv at 3. lra.
Qed.

(** For a measurement of shape (5,) and sigma_0 <> 0 the analytic
    log-likelihood, as a function of mu_0, is largest at
    mu_0 = (d_1 + ... + d_5) / 55 and nowhere else. *)
Theorem analytic_log_likelihood_maximal_mu (d : list R) (m s : R) :
  length d = 5%nat -> s <> 0 ->
  exists v vmax,
    CMAF.analytic_log_likelihood d [m] [s] = Some [v]
    /\ CMAF.analytic_log_likelihood d [Np.sum d / 55] [s] = Some [vmax]
    /\ v <= vmax
    /\ (v = vmax <-> m = Np.sum d / 55).
Proof.
  intros Hd Hs.
  exists (analytic_row d m s), (analytic_row d (Np.sum d / 55) s).
  rewrite !analytic_log_likelihood_rows by done.
  split; [done|]. split; [done|].
  rewrite (analytic_row_quadratic d m s) by done.
  assert (0 < / s ^ 2) as Hinv by (apply Rinv_0_lt_compat; simpl; nra).
  set (e := m - Np.sum d / 55).
  assert (0 <= e ^ 2 / s ^ 2) as Hsq.
  { unfold Rdiv. apply Rmult_le_pos; [simpl; nra|lra]. }
  split; [lra|]. split.
  - intros Heq. assert (e ^ 2 / s ^ 2 = 0) as Hzero by lra.
    unfold Rdiv in Hzero. apply Rmult_integral in Hzero as [Hzero|Hzero]; [|lra].
    assert (e = 0) by (simpl in Hzero; nra). unfold e in *. lra.
  - intros Hm. replace e with 0 by (unfold e; lra).
    unfold Rdiv. simpl. lra.
Qed.

Lemma analytic_log_likelihood_maximal_mu_witness :
  exists v vmax,
    CMAF.analytic_log_likelihood [1; 4; 9; 16; 25] [2] [3] = Some [v]
    /\ CMAF.analytic_log_likelihood [1; 4; 9; 16; 25]
         [Np.sum [1; 4; 9; 16; 25] / 55] [3] = Some [vmax]
    /\ v <= vmax
    /\ (v = vmax <-> 2 = Np.sum [1; 4; 9; 16; 25] / 55).
Proof.
  apply (analytic_log_likelihood_maximal_mu [1; 4; 9; 16; 25] 2 3).
  - reflexivity.
  - lra.
Defined.

(** The likelihood sees sigma_0 only through its square: negated values
    give the same result, errors included. *)
Theorem analytic_log_likelihood_sigma_sign (d mu_0 sigma_0 : list R) :
  CMAF.analytic_log_likelihood d mu_0 (map Ropp sigma_0)
  = CMAF.analytic_log_likelihood d mu_0 sigma_0.
Proof.
  assert (map (fun s => map (fun q => q * s ^ 2) CMAF.squares) (map Ropp sigma_0)
          = map (fun s => map (fun q => q * s ^ 2) CMAF.squares) sigma_0)
    as Hcov.
  { rewrite map_map. apply map_ext. intros s. apply map_ext. intros q.
    simpl. ring. }
  unfold CMAF.analytic_log_likelihood. cbv zeta. by rewrite Hcov.
Qed.

(** A parameter array of length 1 is broadcast against the other one: with
    a single mu_0 the result has one entry per sigma_0, with a single
    sigma_0 one entry per mu_0, each the 5-dimensional Gaussian
    log-density of its pair. *)
Theorem analytic_log_likelihood_broadcast (d : list R) :
  length d = 5%nat ->
  (forall m sigma_0, Forall (fun s => s <> 0) sigma_0 ->
     CMAF.analytic_log_likelihood d [m] sigma_0
     = Some (map (fun s => CMAF.gaussian5_log_density d m s) sigma_0))
  /\ (forall mu_0 s, s <> 0 ->
        CMAF.analytic_log_likelihood d mu_0 [s]
        = Some (map (fun m => CMAF.gaussian5_log_density d m s) mu_0)).
Proof.
  intros Hd.
  assert (forall m, length (map (fun q => q * m) CMAF.squares) = 5%nat) as Hrow
    by (intros; by rewrite length_map).
  split.
  - intros m sigma_0 Hsigma. unfold CMAF.analytic_log_likelihood.
    rewrite decide_True by (by left).
    cbn [map]. rewrite bcast2_row_l by (repeat constructor; by rewrite Hrow).
    cbn [mbind option_bind map]. rewrite bcast2_row_l.
    2:{ apply Forall_forall. intros row [s [-> _]]%list_elem_of_fmap.
        rewrite !length_map, length_zip_with, Hrow, Hd. done. }
    cbn [mbind option_bind].
    rewrite bcast1_same_length by (by rewrite !length_map).
    f_equal. induction Hsigma as [|s sigma_0 Hs _ IH]; [done|].
    cbn [map zip_with]. rewrite IH. f_equal.
    by rewrite <- analytic_row_closed_form.
  - intros mu_0 s Hs. unfold CMAF.analytic_log_likelihood.
    rewrite decide_True by (by left).
    rewrite bcast2_row_l.
    2:{ apply Forall_forall. intros row [m [-> _]]%list_elem_of_fmap.
        by rewrite Hrow. }
    cbn [mbind option_bind map]. unfold Np.bcast2 at 1.
    rewrite bcast_row_r.
    rewrite (Forall_mapM_ext _
               (fun row => Some (zip_with Rdiv row
                                   (map (fun q => q * s ^ 2) CMAF.squares)))).
    2:{ apply Forall_forall.
        intros row [r [-> Hr]]%list_elem_of_fmap.
        apply list_elem_of_fmap in Hr as [r' [-> Hr']].
        apply list_elem_of_fmap in Hr' as [m [-> _]].
        apply bcast1_same_length.
        rewrite !length_map, length_zip_with, Hrow, Hd. done. }
    rewrite mapM_total. cbn [mbind option_bind].
    unfold Np.bcast1. rewrite bcast_row_l, mapM_total. f_equal.
    rewrite !map_map. apply map_ext. intros m.
    by rewrite <- analytic_row_closed_form.
Qed.

Lemma analytic_log_likelihood_broadcast_witness :
  (forall m sigma_0, Forall (fun s => s <> 0) sigma_0 ->
     CMAF.analytic_log_likelihood [1; 4; 9; 16; 25] [m] sigma_0
     = Some (map (fun s => CMAF.gaussian5_log_density [1; 4; 9; 16; 25] m s)
               sigma_0))
  /\ (forall mu_0 s, s <> 0 ->
        CMAF.analytic_log_likelihood [1; 4; 9; 16; 25] mu_0 [s]
        = Some (map (fun m => CMAF.gaussian5_log_density [1; 4; 9; 16; 25] m s)
                  mu_0)).
Proof.
  apply (analytic_log_likelihood_broadcast [1; 4; 9; 16; 25]).
  reflexivity.
Defined.



(** The same holds of an array without rows: (0, 5) against a data vector
    of three entries raises like any other number of rows. *)
Lemma analytic_log_likelihood_no_rows (d sigma_0 : list R) :
  length d <> 5%nat -> length d <> 1%nat ->
  CMAF.analytic_log_likelihood d [] sigma_0 = None.
Proof.
  intros Hd5 Hd1. unfold CMAF.analytic_log_likelihood.
  rewrite decide_False; [done|]. intros [?|?]; done.
Qed.
